(** * IOPlus: the ELPRO Instruction List interpreter and its demo memory

    A shallow embedding of [il_interpreter.c] (the interpreter core with its
    parser) and of the memory callbacks, the menu and the single-step driver
    of [gtk_demo.c], followed by the properties of the evaluation stack, the
    call stack, the execution engine, the address decoder and the demo
    memory, and then by further properties of the parser, of groups, of the
    memory and of the driver.  The run and execute buttons of the demo, which
    process window events inside their loop, are not modelled.

    Conventions.
    - [uint16_t] values are integers of [Z]; every conversion to [uint16_t]
      that can change a value is written out with [uint16].
    - [int] is 32 bits wide (the demo is built for a desktop target).  Signed
      overflow, division by zero and a call through a null callback pointer
      are undefined in C; the functions that can reach one of them return an
      [option], and [None] stands for undefined behaviour.
    - The two fixed arrays are lists, read and written by index; the depth
      counters start at 0 and are only decremented when positive, so every
      index is a natural number.
    - The command codes and flag masks are the values listed in
      [il_interpreter.c]. *)

From Stdlib Require Import ZArith Lia Bool List Ascii.
From stdpp Require Import base option list strings.
Import ListNotations.

#[local] Open Scope Z_scope.

(** ** Machine integers *)

(** Conversion of an [int] result to [uint16_t]. *)
Definition uint16 (z : Z) : Z := z mod 65536.

Definition INT_MAX : Z := 2147483647.

(** C truth value of an integer. *)
Definition truthy (z : Z) : bool := negb (z =? 0).

(** [line += 1] on a [uint16_t]. *)
Definition line_incr (line : Z) : Z := uint16 (line + 1).

(** ** Command codes and flags

    Bits 0-7 of a command hold the command code, the four top bits the
    flags. *)

Definition CMD_LOAD : Z := 1.
Definition CMD_STOR : Z := 2.
Definition CMD_SET  : Z := 3.
Definition CMD_RST  : Z := 4.
Definition CMD_AND  : Z := 5.
Definition CMD_OR   : Z := 6.
Definition CMD_XOR  : Z := 7.
Definition CMD_ADD  : Z := 8.
Definition CMD_SUB  : Z := 9.
Definition CMD_MUL  : Z := 10.
Definition CMD_DIV  : Z := 11.
Definition CMD_GT   : Z := 12.
Definition CMD_GE   : Z := 13.
Definition CMD_EQ   : Z := 14.
Definition CMD_NE   : Z := 15.
Definition CMD_LE   : Z := 16.
Definition CMD_LT   : Z := 17.
Definition CMD_JMP  : Z := 18.
Definition CMD_CAL  : Z := 19.
Definition CMD_RET  : Z := 20.
Definition CMD_PAR  : Z := 21.
Definition CMD_NOP  : Z := 0.
Definition CMD_MASK : Z := 255.

Definition FLG_IMM : Z := 4096.   (* 0x1000, 'I' *)
Definition FLG_NEG : Z := 8192.   (* 0x2000, 'N' *)
Definition FLG_CND : Z := 16384.  (* 0x4000, 'C' *)
Definition FLG_PAR : Z := 32768.  (* 0x8000, '{' *)

(** [cmd & FLG] used as a condition. *)
Definition flag (cmd flg : Z) : bool := truthy (Z.land cmd flg).

(** The case labels of the [switch (cmd & CMD_MASK)] statements; a code with
    no label selects no case. *)
Inductive opcode : Type :=
  | OP_NOP | OP_LOAD | OP_STOR | OP_SET | OP_RST
  | OP_AND | OP_OR | OP_XOR | OP_ADD | OP_SUB | OP_MUL | OP_DIV
  | OP_GT | OP_GE | OP_EQ | OP_NE | OP_LE | OP_LT
  | OP_JMP | OP_CAL | OP_RET | OP_PAR
  | OP_NONE.

Definition decode_opcode (c : Z) : opcode :=
  if c =? CMD_LOAD then OP_LOAD else
  if c =? CMD_STOR then OP_STOR else
  if c =? CMD_SET then OP_SET else
  if c =? CMD_RST then OP_RST else
  if c =? CMD_AND then OP_AND else
  if c =? CMD_OR then OP_OR else
  if c =? CMD_XOR then OP_XOR else
  if c =? CMD_ADD then OP_ADD else
  if c =? CMD_SUB then OP_SUB else
  if c =? CMD_MUL then OP_MUL else
  if c =? CMD_DIV then OP_DIV else
  if c =? CMD_GT then OP_GT else
  if c =? CMD_GE then OP_GE else
  if c =? CMD_EQ then OP_EQ else
  if c =? CMD_NE then OP_NE else
  if c =? CMD_LE then OP_LE else
  if c =? CMD_LT then OP_LT else
  if c =? CMD_JMP then OP_JMP else
  if c =? CMD_CAL then OP_CAL else
  if c =? CMD_RET then OP_RET else
  if c =? CMD_PAR then OP_PAR else
  if c =? CMD_NOP then OP_NOP else OP_NONE.

(** ** The memory interface and the interpreter state *)

(** [il_memory_callbacks]: the caller's [get] and [set].  [Mem] is the
    caller's memory image; a callback receives it and hands it back. *)
Record il_memory_callbacks (Mem : Type) : Type := {
  get : Z -> bool -> Mem -> Z * Mem;
  set : Z -> Z -> bool -> Mem -> Mem
}.
Arguments get {Mem} _ _ _ _.
Arguments set {Mem} _ _ _ _ _.

(** One call through the memory interface, as the caller sees it. *)
Inductive mem_call : Type :=
  | CallGet (address : Z) (invert : bool)
  | CallSet (address value : Z) (invert : bool).

(** A cell of [eval_stack]: its fields [command] and [accum]. *)
Record eval_entry : Type := { command : Z; entry_accum : Z }.

Definition EVAL_STACK_MAX_DEPTH : Z := 20.
Definition CALL_STACK_MAX_DEPTH : Z := 20.

(** The file-scope variables of the interpreter, then the caller's side:
    its memory image and the calls it has received, oldest last. *)
Record il_state (Mem : Type) : Type := mk_state {
  mem : option (il_memory_callbacks Mem);
  accum : Z;
  initialised : bool;
  eval_stack : list eval_entry;
  eval_stack_top : Z;
  call_stack : list Z;
  call_stack_top : Z;
  image : Mem;
  mem_calls : list mem_call
}.
Arguments mk_state {Mem} _ _ _ _ _ _ _ _ _.
Arguments mem {Mem} _.
Arguments accum {Mem} _.
Arguments initialised {Mem} _.
Arguments eval_stack {Mem} _.
Arguments eval_stack_top {Mem} _.
Arguments call_stack {Mem} _.
Arguments call_stack_top {Mem} _.
Arguments image {Mem} _.
Arguments mem_calls {Mem} _.

Section Interpreter.
Context {Mem : Type}.
Implicit Types (s : il_state Mem) (cmd location line addr : Z).

Definition set_accum (a : Z) s : il_state Mem :=
  mk_state (mem s) a (initialised s) (eval_stack s) (eval_stack_top s)
           (call_stack s) (call_stack_top s) (image s) (mem_calls s).

Definition set_eval (st : list eval_entry) (top : Z) s : il_state Mem :=
  mk_state (mem s) (accum s) (initialised s) st top
           (call_stack s) (call_stack_top s) (image s) (mem_calls s).

Definition set_call (st : list Z) (top : Z) s : il_state Mem :=
  mk_state (mem s) (accum s) (initialised s) (eval_stack s) (eval_stack_top s)
           st top (image s) (mem_calls s).

Definition set_image (m : Mem) (c : mem_call) s : il_state Mem :=
  mk_state (mem s) (accum s) (initialised s) (eval_stack s) (eval_stack_top s)
           (call_stack s) (call_stack_top s) m (c :: mem_calls s).

(** [mem->get(address, invert)]; undefined while [mem] is null. *)
Definition call_get (address : Z) (invert : bool) s : option (Z * il_state Mem) :=
  cb ← mem s;
  let '(v, m) := get cb address invert (image s) in
  Some (v, set_image m (CallGet address invert) s).

(** [mem->set(address, value, invert)]; undefined while [mem] is null. *)
Definition call_set (address value : Z) (invert : bool) s : option (il_state Mem) :=
  cb ← mem s;
  Some (set_image (set cb address value invert (image s))
                  (CallSet address value invert) s).

(** *** Delayed evaluation stack *)

(** The store is guarded, the increment is not; the increment is undefined
    at [INT_MAX]. *)
Definition eval_stack_push cmd (acc : Z) s : option (il_state Mem) :=
  let top := eval_stack_top s in
  let st :=
    if top <? EVAL_STACK_MAX_DEPTH
    then <[Z.to_nat top := {| command := cmd; entry_accum := acc |}]> (eval_stack s)
    else eval_stack s in
  if top =? INT_MAX then None else Some (set_eval st (top + 1) s).

(** Returns the saved [(command, accum)] when it returns true. *)
Definition eval_stack_pop s : option (Z * Z) * il_state Mem :=
  if (eval_stack_top s =? 0) || (eval_stack_top s >=? EVAL_STACK_MAX_DEPTH)
  then (None, s)
  else
    let top := eval_stack_top s - 1 in
    let e := default {| command := 0; entry_accum := 0 |}
                     (eval_stack s !! Z.to_nat top) in
    (Some (command e, entry_accum e), set_eval (eval_stack s) top s).

(** *** Call stack *)

Definition call_stack_push addr s : bool * il_state Mem :=
  if call_stack_top s >=? CALL_STACK_MAX_DEPTH then (false, s)
  else (true, set_call (<[Z.to_nat (call_stack_top s) := addr]> (call_stack s))
                       (call_stack_top s + 1) s).

(** Returns the popped line when it returns true. *)
Definition call_stack_pop s : option Z * il_state Mem :=
  if call_stack_top s <=? 0 then (None, s)
  else
    let top := call_stack_top s - 1 in
    (Some (default 0 (call_stack s !! Z.to_nat top)),
     set_call (call_stack s) top s).

(** *** Interface functions *)

Definition il_interp_init (cb : il_memory_callbacks Mem) s : il_state Mem :=
  mk_state (Some cb) 0 true (eval_stack s) 0 (call_stack s) 0
           (image s) (mem_calls s).

Definition il_interp_get_accum s : Z := accum s.

(** *** Operators *)

(** [op1] and [op2] are promoted to [int] before the operator is applied and
    the result is converted back to [uint16_t]: a product above [INT_MAX]
    and a zero divisor are undefined. *)
Definition evaluate_operator cmd (op1 op2 : Z) s : option (Z * il_state Mem) :=
  if Z.land cmd CMD_MASK =? CMD_LOAD then
    call_get op2 (FLG_NEG =? Z.land cmd FLG_NEG) s
  else if Z.land cmd CMD_MASK =? CMD_STOR then
    s1 ← call_set op2 op1 (FLG_NEG =? Z.land cmd FLG_NEG) s;
    Some (op1, s1)
  else
    let op2 := if flag cmd FLG_NEG then uint16 (Z.lnot op2) else op2 in
    ret ← match decode_opcode (Z.land cmd CMD_MASK) with
          | OP_AND => Some (uint16 (Z.land op1 op2))
          | OP_OR  => Some (uint16 (Z.lor op1 op2))
          | OP_XOR => Some (uint16 (Z.lxor op1 op2))
          | OP_ADD => Some (uint16 (op1 + op2))
          | OP_SUB => Some (uint16 (op1 - op2))
          | OP_MUL => if op1 * op2 >? INT_MAX then None
                      else Some (uint16 (op1 * op2))
          | OP_DIV => if op2 =? 0 then None
                      else Some (uint16 (Z.quot op1 op2))
          | OP_GT  => Some (if op1 >? op2 then 1 else 0)
          | OP_GE  => Some (if op1 >=? op2 then 1 else 0)
          | OP_EQ  => Some (if op1 =? op2 then 1 else 0)
          | OP_NE  => Some (if op1 =? op2 then 0 else 1)
          | OP_LE  => Some (if op1 <=? op2 then 1 else 0)
          | OP_LT  => Some (if op1 <? op2 then 1 else 0)
          | _ => Some 0
          end;
    Some (ret, s).

(** *** Execution of one program line *)

(** The test shared by SET and RST. *)
Definition set_condition cmd s : bool :=
  (negb (flag cmd FLG_NEG) && truthy (accum s))
  || (flag cmd FLG_NEG && negb (truthy (accum s))).

(** The test that makes a conditional JUMP, CALL or RET take no action. *)
Definition condition_fails cmd s : bool :=
  flag cmd FLG_CND
  && ((flag cmd FLG_NEG && truthy (accum s))
      || (negb (flag cmd FLG_NEG) && negb (truthy (accum s)))).

(** Returns the new state and the next line. *)
Definition il_interp_execute cmd location line s : option (il_state Mem * Z) :=
  let line := line_incr line in
  match decode_opcode (Z.land cmd CMD_MASK) with
  | OP_SET =>
      if set_condition cmd s
      then s1 ← call_set location 1 false s; Some (s1, line)
      else Some (s, line)
  | OP_RST =>
      if set_condition cmd s
      then s1 ← call_set location 0 false s; Some (s1, line)
      else Some (s, line)
  | OP_JMP | OP_RET | OP_CAL =>
      if condition_fails cmd s then Some (s, line)
      else
        match decode_opcode (Z.land cmd CMD_MASK) with
        | OP_JMP => Some (s, location)
        | OP_RET =>
            match call_stack_pop s with
            | (Some retaddr, s1) => Some (s1, retaddr)
            | (None, s1) => Some (s1, 65535)
            end
        | OP_CAL =>
            match call_stack_push line s with
            | (true, s1) => Some (s1, location)
            | (false, s1) => Some (s1, line)
            end
        | _ => Some (s, line)
        end
  | OP_STOR | OP_LOAD =>
      if flag cmd FLG_PAR then
        s1 ← eval_stack_push cmd (accum s) s;
        Some (set_accum location s1, line)
      else if Z.land cmd CMD_MASK =? CMD_STOR then
        s1 ← call_set location (accum s) (FLG_NEG =? Z.land cmd FLG_NEG) s;
        Some (s1, line)
      else if flag cmd FLG_IMM then Some (set_accum location s, line)
      else
        '(v, s1) ← call_get location (FLG_NEG =? Z.land cmd FLG_NEG) s;
        Some (set_accum v s1, line)
  | OP_AND | OP_OR | OP_XOR | OP_ADD | OP_SUB | OP_MUL | OP_DIV
  | OP_GT | OP_GE | OP_EQ | OP_NE | OP_LE | OP_LT =>
      '(value, s1) ← (if flag cmd FLG_IMM then Some (location, s)
                      else call_get location false s);
      if flag cmd FLG_PAR then
        s2 ← eval_stack_push cmd (accum s1) s1;
        Some (set_accum value s2, line)
      else
        '(ret, s2) ← evaluate_operator cmd (accum s1) value s1;
        Some (set_accum ret s2, line)
  | OP_PAR =>
      match eval_stack_pop s with
      | (Some (s_cmd, s_accum), s1) =>
          '(ret, s2) ← evaluate_operator s_cmd s_accum (accum s1) s1;
          Some (set_accum ret s2, line)
      | (None, s1) => Some (s1, line)
      end
  | OP_NOP => Some (s, line)
  | OP_NONE => Some (s, line)
  end.

(** A program as the driver feeds it: [(cmd, value, line)] per call. *)
Definition instr : Type := Z * Z * Z.

(** Consecutive [il_interp_execute] calls; returns the final state and the
    lines returned, first call first. *)
Fixpoint execute_all (prog : list instr) s : option (il_state Mem * list Z) :=
  match prog with
  | [] => Some (s, [])
  | (cmd, location, line) :: rest =>
      '(s1, next) ← il_interp_execute cmd location line s;
      '(s2, nexts) ← execute_all rest s1;
      Some (s2, next :: nexts)
  end.

End Interpreter.

(** The interpreter's variables as the program starts: static storage is
    zeroed, [mem] is null and [initialised] is false. *)
Definition startup {Mem : Type} (m : Mem) : il_state Mem :=
  mk_state None 0 false
           (replicate 20 {| command := 0; entry_accum := 0 |}) 0
           (replicate 20 0) 0 m [].

(** ** The demo's memory ([gtk_demo.c]) *)

Definition MEM_SIZE : Z := 26.

(** The memory widgets: [bit_memory[2][MEM_SIZE]] holds toggle buttons, each
    keeping whether it is active; [word_memory[2][MEM_SIZE]] holds spin
    buttons, each keeping a number. *)
Record demo_memory : Type := {
  bit_memory : list (list bool);
  word_memory : list (list Z)
}.

(** [a[col][row]] and [a[col][row] = v] on a two-dimensional array. *)
Definition cell {A : Type} (d : A) (a : list (list A)) (col row : Z) : A :=
  default d (a !! Z.to_nat col ≫= (.!! Z.to_nat row)).

Definition cell_update {A : Type} (a : list (list A)) (col row : Z) (v : A)
  : list (list A) :=
  alter (<[Z.to_nat row := v]>) (Z.to_nat col) a.

(** The spin buttons are created with the range 0 to 65535 and no digits:
    setting a value clamps it to the range. *)
Definition spin_button_set_value (v : Z) : Z := Z.max 0 (Z.min 65535 v).

(** Returns [(col, row)] when it returns true. *)
Definition addr_decode (addr : Z) : option (Z * Z) :=
  let tcol := Z.quot addr 10000 in
  let trow := Z.rem addr 10000 in
  if (trow =? 0) || (trow >? MEM_SIZE) then None
  else
    let trow := trow - 1 in
    if (tcol =? 0) || (tcol =? 1) then Some (tcol, trow)
    else if (tcol =? 3) || (tcol =? 4) then Some (tcol - 1, trow)
    else None.

(** [!val] stored back into a [uint16_t]. *)
Definition logical_not (val : Z) : Z := if truthy val then 0 else 1.

(** [~val] stored back into a [uint16_t]. *)
Definition bitwise_not (val : Z) : Z := uint16 (Z.lnot val).

Definition mem_set (addr val : Z) (invert : bool) (m : demo_memory) : demo_memory :=
  match addr_decode addr with
  | Some (col, row) =>
      if col <? 2 then
        let val := if invert then logical_not val else val in
        {| bit_memory := cell_update (bit_memory m) col row (truthy val);
           word_memory := word_memory m |}
      else
        let val := if invert then bitwise_not val else val in
        {| bit_memory := bit_memory m;
           word_memory := cell_update (word_memory m) (col - 2) row
                                      (spin_button_set_value val) |}
  | None => m
  end.

Definition mem_get (addr : Z) (invert : bool) (m : demo_memory) : Z :=
  match addr_decode addr with
  | Some (col, row) =>
      if col <? 2 then
        let val := if cell false (bit_memory m) col row then 1 else 0 in
        if invert then logical_not val else val
      else
        let val := uint16 (cell 0 (word_memory m) (col - 2) row) in
        if invert then bitwise_not val else val
  | None => 0
  end.

(** [mc]: the callback structure handed to [il_interp_init]. *)
Definition mc : il_memory_callbacks demo_memory :=
  {| get := fun addr invert m => (mem_get addr invert m, m);
     set := mem_set |}.

(** The widgets as [activate] creates them: every button released, every
    spin button at 0. *)
Definition demo_start : demo_memory :=
  {| bit_memory := replicate 2 (replicate 26 false);
     word_memory := replicate 2 (replicate 26 0) |}.

(** Both arrays have their declared dimensions. *)
Definition demo_wf (m : demo_memory) : Prop :=
  length (bit_memory m) = 2%nat /\ Forall (fun r => length r = 26%nat) (bit_memory m) /\
  length (word_memory m) = 2%nat /\ Forall (fun r => length r = 26%nat) (word_memory m).

(** The interpreter bound to the demo's memory, as [prog_init] leaves it. *)
Definition demo_init : il_state demo_memory :=
  il_interp_init mc (startup demo_start).

(** ** Vocabulary of the properties *)

(** An address is valid when its slot [a mod 10000] lies in 1..26 and its
    region digit [a / 10000] is 0, 1, 3 or 4. *)
Definition valid_address (a : Z) : Prop :=
  1 <= a mod 10000 <= 26 /\
  (a / 10000 = 0 \/ a / 10000 = 1 \/ a / 10000 = 3 \/ a / 10000 = 4).

(** What a boolean cell reads back as. *)
Definition bit_of (v : Z) : Z := if v =? 0 then 0 else 1.

Section Vocabulary.
Context {Mem : Type}.
Implicit Types (s : il_state Mem).

(** The live part of the call stack, oldest return line first. *)
Definition call_view s : list Z :=
  take (Z.to_nat (call_stack_top s)) (call_stack s).

(** The live part of the evaluation stack, oldest entry first. *)
Definition eval_view s : list eval_entry :=
  take (Z.to_nat (eval_stack_top s)) (eval_stack s).

(** The call-stack array has its declared size and its depth counter is
    in range. *)
Definition call_ok s : Prop :=
  length (call_stack s) = 20%nat /\ 0 <= call_stack_top s <= 20.

(** Two states with the same call stack: array and depth counter. *)
Definition same_call_stack s s1 : Prop :=
  call_stack s1 = call_stack s /\ call_stack_top s1 = call_stack_top s.

(** An instruction that is neither CALL nor RET. *)
Definition call_neutral (i : instr) : Prop :=
  Z.land (i.1.1) CMD_MASK <> CMD_CAL /\ Z.land (i.1.1) CMD_MASK <> CMD_RET.

(** The return line that executing [cmd] at [line] writes to the call
    stack: the one handed to [call_stack_push] when it returns true. *)
Definition pushed_by (cmd line : Z) s : list Z :=
  match decode_opcode (Z.land cmd CMD_MASK) with
  | OP_CAL =>
      if condition_fails cmd s then []
      else if (call_stack_push (line_incr line) s).1 then [line_incr line]
      else []
  | _ => []
  end.

(** States reached from [il_interp_init] by [il_interp_execute] calls,
    with the return lines written by successful pushes so far. *)
Inductive reach : il_state Mem -> list Z -> Prop :=
  | reach_init cb s :
      length (call_stack s) = 20%nat ->
      reach (il_interp_init cb s) []
  | reach_execute s written cmd location line s1 next :
      reach s written ->
      il_interp_execute cmd location line s = Some (s1, next) ->
      reach s1 (pushed_by cmd line s ++ written).

End Vocabulary.

(** Unconditional CALL of [target] at [line], and unconditional RET. *)
Definition call_instr (c : Z * Z) : instr := (CMD_CAL, c.2, c.1).
Definition ret_instr : instr := (CMD_RET, 0, 0).

(** [LOAD_{ 1] at line 0: opens a group. *)
Definition open_group : instr := (Z.lor CMD_LOAD FLG_PAR, 1, 0).

(** The demo after [n] >= 1 lines [LOAD_{ 1] from [demo_init], written out:
    the first push saves the accumulator 0, the later ones save 1; pushes
    beyond the 20th store nothing. *)
Definition nested (n : nat) : il_state demo_memory :=
  mk_state (Some mc) 1 true
           (take n ({| command := 32769; entry_accum := 0 |}
                      :: replicate 19 {| command := 32769; entry_accum := 1 |})
            ++ replicate (20 - n) {| command := 0; entry_accum := 0 |})
           (Z.of_nat n)
           (replicate 20 0) 0 demo_start [].

(** ** Parsing the command string ([il_interpreter.c]) *)

(** [0 == strncmp(str1, str2, n)]: the first [n] characters agree, or both
    strings end before that. *)
Fixpoint strncmp_eq (str1 str2 : string) (n : nat) : bool :=
  match n with
  | O => true
  | S n1 =>
      match str1, str2 with
      | EmptyString, EmptyString => true
      | String a rest1, String b rest2 =>
          Ascii.eqb a b && strncmp_eq rest1 rest2 n1
      | _, _ => false
      end
  end.

(** [strchr(str, c)]: the rest of [str] from its first [c] on, or null; the
    terminating NUL counts as a character of the string. *)
Fixpoint strchr (str : string) (c : ascii) : option string :=
  match str with
  | EmptyString => if Ascii.eqb c Ascii.zero then Some EmptyString else None
  | String a rest => if Ascii.eqb a c then Some str else strchr rest c
  end.

Module Parser.

(** [match(str1, str2)]: the start of [str2] is [str1]. *)
Definition matches (str1 str2 : string) : bool :=
  strncmp_eq str1 str2 (String.length str1).

(** [flag(flag, str)]: [flag] occurs in [str] from its first ['_'] on. *)
Definition flag (flag : ascii) (str : string) : bool :=
  match strchr str "_" with
  | Some str =>
      match strchr str flag with
      | Some _ => true
      | None => false
      end
  | None => false
  end.

(** The 32-bit [ret] is returned as a [uint16_t]. *)
Definition il_interp_parse (command : string) : Z :=
  let ret :=
    if matches "LOAD" command then CMD_LOAD else
    if matches "STOR" command then CMD_STOR else
    if matches "SET" command then CMD_SET else
    if matches "RST" command then CMD_RST else
    if matches "AND" command then CMD_AND else
    if matches "OR" command then CMD_OR else
    if matches "XOR" command then CMD_XOR else
    if matches "ADD" command then CMD_ADD else
    if matches "SUB" command then CMD_SUB else
    if matches "MUL" command then CMD_MUL else
    if matches "DIV" command then CMD_DIV else
    if matches "GT" command then CMD_GT else
    if matches "GE" command then CMD_GE else
    if matches "EQ" command then CMD_EQ else
    if matches "NE" command then CMD_NE else
    if matches "LE" command then CMD_LE else
    if matches "LT" command then CMD_LT else
    if matches "JUMP" command then CMD_JMP else
    if matches "CALL" command then CMD_CAL else
    if matches "RET" command then CMD_RET else
    if matches "}" command then CMD_PAR else
    CMD_NOP in
  let ret := if flag "I" command then Z.lor ret FLG_IMM else ret in
  let ret := if flag "N" command then Z.lor ret FLG_NEG else ret in
  let ret := if flag "C" command then Z.lor ret FLG_CND else ret in
  let ret := if flag "{" command then Z.lor ret FLG_PAR else ret in
  uint16 ret.

End Parser.

(** ** The demo's menu and single-step driver ([gtk_demo.c]) *)


Definition NUM_LINES : Z := 31.

(** The demo's variables: the interpreter with the memory widgets, the
    [program] lines (per line the text selected in the combo box, if any, and
    the number in the spin button), [current_line] and the three status
    flags. *)
Record demo : Type := mk_demo {
  interp : il_state demo_memory;
  program : list (option string * Z);
  current_line : Z;
  init : bool;
  halt : bool;
  running : bool
}.

(** Returns the interpreter's new state with the new line number; an index
    outside [program] is undefined.  The spin value and the line are passed
    as [uint16_t]. *)
Definition execute_line (line_no : Z) (d : demo) : option (il_state demo_memory * Z) :=
  '(command, value) ← program d !! Z.to_nat line_no;
  match command with
  | Some command =>
      il_interp_execute (Parser.il_interp_parse command) (uint16 value)
                        (uint16 line_no) (interp d)
  | None => Some (interp d, uint16 (line_no + 1))
  end.

(** [show_state] only redraws and is left out. *)
Definition prog_step (d : demo) : option demo :=
  if negb (running d) && init d && (current_line d <? NUM_LINES) then
    '(i, line) ← execute_line (current_line d) d;
    Some (mk_demo i (program d) line (init d) (halt d) (running d))
  else Some d.

Definition prog_init (d : demo) : demo :=
  if running d then d
  else mk_demo (if init d then interp d else il_interp_init mc (interp d))
               (program d) 0 true (halt d) (running d).

(** The demo once the window is built and the user has filled in the
    program lines [prog]. *)
Definition demo_boot (prog : list (option string * Z)) : demo :=
  mk_demo (startup demo_start) prog 0 false false false.

(** A press of the step or of the init button. *)
Inductive press : Type := Step | Init.

Definition do_press (p : press) (d : demo) : option demo :=
  match p with
  | Step => prog_step d
  | Init => Some (prog_init d)
  end.

(** The presses of a list, first one first. *)
Fixpoint do_presses (ps : list press) (d : demo) : option demo :=
  match ps with
  | [] => Some d
  | p :: rest => d1 ← do_press p d; do_presses rest d1
  end.

(** ** Vocabulary of the further properties *)

(** The mnemonics in the order [il_interp_parse] tries them, with their
    codes. *)
Definition mnemonics : list (string * Z) :=
  [ ("LOAD", CMD_LOAD); ("STOR", CMD_STOR); ("SET", CMD_SET); ("RST", CMD_RST);
    ("AND", CMD_AND); ("OR", CMD_OR); ("XOR", CMD_XOR); ("ADD", CMD_ADD);
    ("SUB", CMD_SUB); ("MUL", CMD_MUL); ("DIV", CMD_DIV); ("GT", CMD_GT);
    ("GE", CMD_GE); ("EQ", CMD_EQ); ("NE", CMD_NE); ("LE", CMD_LE);
    ("LT", CMD_LT); ("JUMP", CMD_JMP); ("CALL", CMD_CAL); ("RET", CMD_RET);
    ("}", CMD_PAR) ].

(** The flag characters with their bits. *)
Definition flag_chars : list (ascii * Z) :=
  [ ("I"%char, FLG_IMM); ("N"%char, FLG_NEG);
    ("C"%char, FLG_CND); ("{"%char, FLG_PAR) ].

(** [c] is a character of [str]. *)
Definition occurs (c : ascii) (str : string) : Prop :=
  exists pre post, str = pre +:+ String c post.

(** [c] occurs in [str] after the first ['_'] of [str]. *)
Definition occurs_after_underscore (c : ascii) (str : string) : Prop :=
  exists pre post,
    str = pre +:+ String "_" post /\ ~ occurs "_" pre /\ occurs c post.

(** An instruction that neither opens nor closes a group. *)
Definition eval_neutral (i : instr) : Prop :=
  flag (i.1.1) FLG_PAR = false /\ Z.land (i.1.1) CMD_MASK <> CMD_PAR.

(** An instruction with one of the three branching codes. *)
Definition branching (cmd : Z) : Prop :=
  Z.land cmd CMD_MASK = CMD_JMP \/ Z.land cmd CMD_MASK = CMD_CAL \/
  Z.land cmd CMD_MASK = CMD_RET.

(** A command whose code can open a group: LOAD, STOR or one of the
    binary operators. *)
Definition deferrable (cmd : Z) : bool :=
  match decode_opcode (Z.land cmd CMD_MASK) with
  | OP_LOAD | OP_STOR
  | OP_AND | OP_OR | OP_XOR | OP_ADD | OP_SUB | OP_MUL | OP_DIV
  | OP_GT | OP_GE | OP_EQ | OP_NE | OP_LE | OP_LT => true
  | _ => false
  end.


(** The right operand as the operators see it: complemented under Negate. *)
Definition effective_operand (cmd op2 : Z) : Z :=
  if flag cmd FLG_NEG then uint16 (Z.lnot op2) else op2.


(** What every state reached by presses satisfies. *)
Definition pressed_ok (prog : list (option string * Z)) (d : demo) : Prop :=
  program d = prog /\ running d = false /\
  (init d = false -> interp d = startup demo_start /\ current_line d = 0) /\
  (init d = true -> mem (interp d) = Some mc).

(** ** Proof automation *)

(** Case analysis on every test and every undefined step of a run. *)
Ltac crunch :=
  repeat match goal with
    | H : None = Some _ |- _ => discriminate H
    | H : Some _ = Some _ |- _ => injection H as H
    | H : (_, _) = (_, _) |- _ => injection H as H
    | p : (_ * _)%type |- _ => destruct p
    | H : mbind _ ?o = Some _ |- _ =>
        destruct o eqn:?; cbn [mbind option_bind] in H
    | H : context [if ?b then _ else _] |- _ => destruct b eqn:?
    | H : context [match ?o with Some _ => _ | None => _ end] |- _ =>
        destruct o eqn:?
    | H : context [match ?p with (_, _) => _ end] |- _ => destruct p eqn:?
    end; subst.

(** ** Checks on concrete programs *)

(** [LOAD_I 5; ADD_I 3; STOR 40001] leaves 8 in the accumulator and in the
    first word of bank 4xxxx. *)
Example scenario_load_add_stor :
  (execute_all [(4097, 5, 0); (4104, 3, 1); (2, 40001, 2)]
               (il_interp_init mc (startup demo_start))) ≫=
    (fun r => Some (accum (fst r), cell 0 (word_memory (image (fst r))) 1 0, snd r))
  = Some (8, 8, [1; 2; 3]).
Proof. vm_compute. reflexivity. Qed.

(** [SET 00001] sets the first bit of bank 0xxxx when the accumulator is
    nonzero and leaves it alone when the accumulator is 0. *)
Example scenario_set_bit :
  (execute_all [(4097, 1, 0); (3, 1, 1)] demo_init) ≫=
    (fun r => Some (cell false (bit_memory (image r.1)) 0 0, mem_calls r.1))
  = Some (true, [CallSet 1 1 false]) /\
  (execute_all [(4097, 0, 0); (3, 1, 1)] demo_init) ≫=
    (fun r => Some (cell false (bit_memory (image r.1)) 0 0, mem_calls r.1))
  = Some (false, []).
Proof. split; vm_compute; reflexivity. Qed.

(** Before [il_interp_init] the callback pointer is null: a LOAD from
    memory is undefined, an immediate LOAD is not. *)
Example load_before_init :
  il_interp_execute CMD_LOAD 40001 0 (startup demo_start) = None /\
  il_interp_execute 4097 5 0 (startup demo_start)
  = Some (set_accum 5 (startup demo_start), 1).
Proof. split; reflexivity. Qed.

(** A CALL at line 3 of the freshly initialised demo is reached with the
    return line 4 recorded as written. *)
Example reach_after_call :
  exists s1,
    il_interp_execute CMD_CAL 7 3 demo_init = Some (s1, 7) /\
    call_stack_top s1 = 1 /\ reach s1 [4].
Proof.
  eexists. split; [reflexivity|]. split; [reflexivity|].
  change [4] with (pushed_by CMD_CAL 3 demo_init ++ []).
  apply (reach_execute demo_init [] CMD_CAL 7 3 _ 7); [|reflexivity].
  apply (reach_init mc (startup demo_start)). reflexivity.
Qed.

(** ** Basic facts *)

Lemma line_incr_small (line : Z) : 0 <= line < 65535 -> line_incr line = line + 1.
Proof. intros H. unfold line_incr, uint16. apply Z.mod_small. lia. Qed.

Lemma line_incr_wraps : line_incr 65535 = 0.
Proof. reflexivity. Qed.

Lemma line_incr_range (line : Z) : 0 <= line_incr line < 65536.
Proof. unfold line_incr, uint16. apply Z.mod_pos_bound. lia. Qed.

Lemma decode_opcode_none (c : Z) : ~ (0 <= c <= 21) -> decode_opcode c = OP_NONE.
Proof.
  intros H. unfold decode_opcode.
  repeat match goal with
         | |- context [?a =? ?b] => destruct (Z.eqb_spec a b) as [->|_]
         end; try reflexivity; exfalso; apply H; vm_compute; split; discriminate.
Qed.

Lemma truthy_false (z : Z) : truthy z = false <-> z = 0.
Proof. unfold truthy. destruct (Z.eqb_spec z 0); simpl; split; congruence. Qed.

Lemma truthy_true (z : Z) : truthy z = true <-> z <> 0.
Proof. unfold truthy. destruct (Z.eqb_spec z 0); simpl; split; congruence. Qed.

Section Control.
Context {Mem : Type}.
Implicit Types (s : il_state Mem).

(** A JUMP, CALL or RET without the Conditional flag is never gated. *)
Lemma condition_fails_unconditional cmd s :
  flag cmd FLG_CND = false -> condition_fails cmd s = false.
Proof. intros H. unfold condition_fails. now rewrite H. Qed.

(** With Conditional and Negate set the gate closes on a nonzero
    accumulator. *)
Lemma condition_fails_negated cmd s :
  flag cmd FLG_CND = true -> flag cmd FLG_NEG = true ->
  condition_fails cmd s = truthy (accum s).
Proof.
  intros Hc Hn. unfold condition_fails. rewrite Hc, Hn. simpl.
  now rewrite orb_false_r.
Qed.

(** With Conditional set and Negate clear the gate closes on a zero
    accumulator. *)
Lemma condition_fails_plain cmd s :
  flag cmd FLG_CND = true -> flag cmd FLG_NEG = false ->
  condition_fails cmd s = negb (truthy (accum s)).
Proof. intros Hc Hn. unfold condition_fails. now rewrite Hc, Hn. Qed.

Lemma execute_jump cmd location line s :
  Z.land cmd CMD_MASK = CMD_JMP ->
  il_interp_execute cmd location line s =
    Some (s, if condition_fails cmd s then line_incr line else location).
Proof.
  intros H. unfold il_interp_execute. rewrite H.
  change (decode_opcode CMD_JMP) with OP_JMP.
  now destruct (condition_fails cmd s).
Qed.

Lemma execute_ret cmd location line s :
  Z.land cmd CMD_MASK = CMD_RET ->
  il_interp_execute cmd location line s =
    if condition_fails cmd s then Some (s, line_incr line)
    else match call_stack_pop s with
         | (Some retaddr, s1) => Some (s1, retaddr)
         | (None, s1) => Some (s1, 65535)
         end.
Proof.
  intros H. unfold il_interp_execute. rewrite H.
  now change (decode_opcode CMD_RET) with OP_RET.
Qed.

Lemma execute_call cmd location line s :
  Z.land cmd CMD_MASK = CMD_CAL ->
  il_interp_execute cmd location line s =
    if condition_fails cmd s then Some (s, line_incr line)
    else match call_stack_push (line_incr line) s with
         | (true, s1) => Some (s1, location)
         | (false, s1) => Some (s1, line_incr line)
         end.
Proof.
  intros H. unfold il_interp_execute. rewrite H.
  now change (decode_opcode CMD_CAL) with OP_CAL.
Qed.

(** C3. A JUMP with the Conditional and Negate flags set returns the
    operand as the next line when the accumulator is 0 and the incremented
    current line ([current_line + 1] as a [uint16_t]) when it is nonzero;
    a JUMP without the Conditional flag always returns the operand.  The
    state is left as it was. *)
Theorem jump_conditional_negate cmd operand line s :
  Z.land cmd CMD_MASK = CMD_JMP ->
  (flag cmd FLG_CND = true -> flag cmd FLG_NEG = true -> accum s = 0 ->
     il_interp_execute cmd operand line s = Some (s, operand)) /\
  (flag cmd FLG_CND = true -> flag cmd FLG_NEG = true -> accum s <> 0 ->
     il_interp_execute cmd operand line s = Some (s, line_incr line)) /\
  (flag cmd FLG_CND = false ->
     il_interp_execute cmd operand line s = Some (s, operand)) /\
  (0 <= line < 65535 -> line_incr line = line + 1).
Proof.
  intros H. rewrite (execute_jump _ _ _ _ H). repeat split.
  - intros Hc Hn Ha. rewrite (condition_fails_negated _ _ Hc Hn).
    apply truthy_false in Ha. now rewrite Ha.
  - intros Hc Hn Ha. rewrite (condition_fails_negated _ _ Hc Hn).
    apply truthy_true in Ha. now rewrite Ha.
  - intros Hc. now rewrite (condition_fails_unconditional _ _ Hc).
  - apply line_incr_small.
Qed.

(** C5. A RET that is unconditional, or conditional with its condition
    met (accumulator nonzero, or zero under Negate), executed on an empty
    call stack returns 65535 and changes nothing: accumulator, evaluation
    stack and call stack are as before. *)
Theorem ret_on_empty_call_stack cmd operand line s :
  Z.land cmd CMD_MASK = CMD_RET ->
  call_stack_top s = 0 ->
  flag cmd FLG_CND = false \/
  (flag cmd FLG_CND = true /\
   ((flag cmd FLG_NEG = false /\ accum s <> 0) \/
    (flag cmd FLG_NEG = true /\ accum s = 0))) ->
  il_interp_execute cmd operand line s = Some (s, 65535).
Proof.
  intros H Htop Hcond. rewrite (execute_ret _ _ _ _ H).
  assert (condition_fails cmd s = false) as ->.
  { destruct Hcond as [Hc | [Hc [[Hn Ha] | [Hn Ha]]]].
    - now apply condition_fails_unconditional.
    - rewrite (condition_fails_plain _ _ Hc Hn).
      apply truthy_true in Ha. now rewrite Ha.
    - rewrite (condition_fails_negated _ _ Hc Hn).
      now apply truthy_false. }
  unfold call_stack_pop. now rewrite Htop.
Qed.

(** C10. A command whose code byte is none of the 22 defined codes is
    executed like NOP: the incremented line is returned and the state,
    which includes the caller's memory and the record of the calls made
    through the memory interface, is unchanged, whatever the flags and the
    operand. *)
Theorem undefined_opcode_is_nop cmd operand line s :
  ~ (0 <= Z.land cmd CMD_MASK <= 21) ->
  il_interp_execute cmd operand line s = Some (s, line_incr line) /\
  il_interp_execute cmd operand line s = il_interp_execute CMD_NOP operand line s /\
  (0 <= line < 65535 -> line_incr line = line + 1).
Proof.
  intros H. unfold il_interp_execute.
  rewrite (decode_opcode_none _ H).
  repeat split. apply line_incr_small.
Qed.

End Control.

(** ** The call stack *)

Section CallStack.
Context {Mem : Type}.
Implicit Types (s : il_state Mem).

Lemma call_view_length s :
  call_ok s -> length (call_view s) = Z.to_nat (call_stack_top s).
Proof.
  intros [Hlen Htop]. unfold call_view. rewrite length_take_le; lia.
Qed.

Lemma call_stack_push_full addr s :
  20 <= call_stack_top s -> call_stack_push addr s = (false, s).
Proof.
  intros H. unfold call_stack_push, CALL_STACK_MAX_DEPTH.
  destruct (Z.geb_spec (call_stack_top s) 20); [reflexivity | lia].
Qed.

Lemma call_stack_push_room addr s :
  call_stack_top s < 20 ->
  call_stack_push addr s =
    (true, set_call (<[Z.to_nat (call_stack_top s) := addr]> (call_stack s))
                    (call_stack_top s + 1) s).
Proof.
  intros H. unfold call_stack_push, CALL_STACK_MAX_DEPTH.
  destruct (Z.geb_spec (call_stack_top s) 20); [lia | reflexivity].
Qed.

Lemma call_stack_pop_empty s :
  call_stack_top s <= 0 -> call_stack_pop s = (None, s).
Proof.
  intros H. unfold call_stack_pop.
  destruct (Z.leb_spec (call_stack_top s) 0); [reflexivity | lia].
Qed.

Lemma call_stack_pop_live s :
  0 < call_stack_top s ->
  call_stack_pop s =
    (Some (default 0 (call_stack s !! Z.to_nat (call_stack_top s - 1))),
     set_call (call_stack s) (call_stack_top s - 1) s).
Proof.
  intros H. unfold call_stack_pop.
  destruct (Z.leb_spec (call_stack_top s) 0); [lia | reflexivity].
Qed.

(** A push with room appends to the live part. *)
Lemma call_view_push addr s :
  call_ok s -> call_stack_top s < 20 ->
  let s1 := (call_stack_push addr s).2 in
  (call_stack_push addr s).1 = true /\
  call_ok s1 /\
  call_stack_top s1 = call_stack_top s + 1 /\
  call_view s1 = call_view s ++ [addr].
Proof.
  intros [Hlen Htop] Hroom. rewrite call_stack_push_room by assumption.
  cbn. unfold call_ok, call_view. cbn. rewrite length_insert.
  repeat split; try lia.
  replace (Z.to_nat (call_stack_top s + 1)) with (S (Z.to_nat (call_stack_top s))) by lia.
  rewrite (take_S_r _ _ addr) by (apply list_lookup_insert_eq; lia).
  rewrite take_insert_ge by lia. reflexivity.
Qed.

(** A pop of a live stack removes and returns the newest return line. *)
Lemma call_view_pop older v s :
  call_ok s -> call_view s = older ++ [v] ->
  call_stack_pop s = (Some v, (call_stack_pop s).2) /\
  call_ok (call_stack_pop s).2 /\
  call_stack_top (call_stack_pop s).2 = call_stack_top s - 1 /\
  call_view (call_stack_pop s).2 = older.
Proof.
  intros Hok Hview. pose proof (call_view_length s Hok) as Hl.
  destruct Hok as [Hlen Htop].
  rewrite Hview, length_app in Hl. cbn in Hl.
  assert (0 < call_stack_top s) as Hpos by lia.
  rewrite (call_stack_pop_live s Hpos). cbn.
  assert (call_stack s !! Z.to_nat (call_stack_top s - 1) = Some v) as Hv.
  { rewrite <- (lookup_take_lt _ (Z.to_nat (call_stack_top s))) by lia.
    fold (call_view s). rewrite Hview.
    replace (Z.to_nat (call_stack_top s - 1)) with (length older) by lia.
    apply list_lookup_middle. reflexivity. }
  rewrite Hv. cbn. unfold call_ok, call_view. cbn.
  repeat split; try lia.
  assert (Z.to_nat (call_stack_top s - 1) = length older) as -> by lia.
  transitivity (take (length older) (call_view s)).
  - unfold call_view. rewrite take_take. f_equal. lia.
  - rewrite Hview. apply take_app_length.
Qed.

End CallStack.

(** ** What leaves the call stack alone *)

Lemma decode_opcode_cal (c : Z) : decode_opcode c = OP_CAL -> c = CMD_CAL.
Proof.
  unfold decode_opcode.
  repeat match goal with
         | |- context [?a =? ?b] => destruct (Z.eqb_spec a b) as [->|_]
         end; intros H; try discriminate H; reflexivity.
Qed.

Lemma decode_opcode_ret (c : Z) : decode_opcode c = OP_RET -> c = CMD_RET.
Proof.
  unfold decode_opcode.
  repeat match goal with
         | |- context [?a =? ?b] => destruct (Z.eqb_spec a b) as [->|_]
         end; intros H; try discriminate H; reflexivity.
Qed.

Lemma decode_opcode_par (c : Z) : decode_opcode c = OP_PAR -> c = CMD_PAR.
Proof.
  unfold decode_opcode.
  repeat match goal with
         | |- context [?a =? ?b] => destruct (Z.eqb_spec a b) as [->|_]
         end; intros H; try discriminate H; reflexivity.
Qed.

Section Frame.
Context {Mem : Type}.
Implicit Types (s : il_state Mem).

Lemma same_call_stack_refl s : same_call_stack s s.
Proof. now split. Qed.

Lemma same_call_stack_trans s s1 s2 :
  same_call_stack s s1 -> same_call_stack s1 s2 -> same_call_stack s s2.
Proof. intros [? ?] [? ?]. split; congruence. Qed.

Lemma set_accum_frame a s : same_call_stack s (set_accum a s).
Proof. now split. Qed.

Lemma call_get_frame address invert s v s1 :
  call_get address invert s = Some (v, s1) -> same_call_stack s s1.
Proof.
  unfold call_get. destruct (mem s) as [cb|]; [|discriminate]. cbn.
  destruct (get cb address invert (image s)). intros [= <- <-]. now split.
Qed.

Lemma call_set_frame address value invert s s1 :
  call_set address value invert s = Some s1 -> same_call_stack s s1.
Proof.
  unfold call_set. destruct (mem s) as [cb|]; [|discriminate]. cbn.
  intros [= <-]. now split.
Qed.

Lemma eval_stack_push_frame cmd acc s s1 :
  eval_stack_push cmd acc s = Some s1 -> same_call_stack s s1.
Proof.
  unfold eval_stack_push. destruct (eval_stack_top s =? INT_MAX); [discriminate|].
  intros [= <-]. now split.
Qed.

Lemma eval_stack_pop_frame s : same_call_stack s (eval_stack_pop s).2.
Proof.
  unfold eval_stack_pop.
  destruct ((eval_stack_top s =? 0) || (eval_stack_top s >=? EVAL_STACK_MAX_DEPTH));
    now split.
Qed.

Lemma evaluate_operator_frame cmd op1 op2 s r s1 :
  evaluate_operator cmd op1 op2 s = Some (r, s1) -> same_call_stack s s1.
Proof.
  unfold evaluate_operator.
  destruct (Z.land cmd CMD_MASK =? CMD_LOAD); [apply call_get_frame|].
  destruct (Z.land cmd CMD_MASK =? CMD_STOR).
  - destruct (call_set op2 op1 _ s) as [s2|] eqn:E; [|discriminate]. cbn.
    intros [= <- <-]. eapply call_set_frame, E.
  - match goal with
    | |- (?o ≫= _) = _ -> _ => destruct o; [|discriminate]
    end. cbn. intros [= <- <-]. apply same_call_stack_refl.
Qed.

(** Turns every step of a run into the two equations of its frame. *)
Ltac frames :=
  repeat match goal with
    | H : call_get _ _ _ = Some _ |- _ => apply call_get_frame in H; destruct H
    | H : call_set _ _ _ _ = Some _ |- _ => apply call_set_frame in H; destruct H
    | H : eval_stack_push _ _ _ = Some _ |- _ =>
        apply eval_stack_push_frame in H; destruct H
    | H : evaluate_operator _ _ _ _ = Some _ |- _ =>
        apply evaluate_operator_frame in H; destruct H
    | H : eval_stack_pop ?s = (_, _) |- _ =>
        let F := fresh in
        pose proof (eval_stack_pop_frame s) as F; rewrite H in F;
        destruct F; clear H
    end.

(** Only CALL and RET touch the call stack. *)
Lemma execute_call_neutral cmd location line s s1 next :
  call_neutral (cmd, location, line) ->
  il_interp_execute cmd location line s = Some (s1, next) ->
  same_call_stack s s1.
Proof.
  intros [Hcal Hret]. cbn in Hcal, Hret. unfold il_interp_execute.
  destruct (decode_opcode (Z.land cmd CMD_MASK)) eqn:Hop;
    try (apply decode_opcode_cal in Hop; contradiction);
    try (apply decode_opcode_ret in Hop; contradiction);
    clear Hop Hcal Hret;
    intros H; crunch; frames; split; cbn [snd] in *; cbn; congruence.
Qed.

End Frame.

(** ** CALL and RET *)

Section CallRet.
Context {Mem : Type}.
Implicit Types (s : il_state Mem).

Lemma same_call_stack_view s s1 :
  same_call_stack s s1 -> call_view s1 = call_view s.
Proof. intros [Hst Htop]. unfold call_view. now rewrite Hst, Htop. Qed.

Lemma same_call_stack_ok s s1 :
  same_call_stack s s1 -> call_ok s -> call_ok s1.
Proof. intros [Hst Htop]. unfold call_ok. now rewrite Hst, Htop. Qed.

Lemma execute_all_call_neutral mid : forall s s1 outs,
  Forall call_neutral mid ->
  execute_all mid s = Some (s1, outs) ->
  same_call_stack s s1.
Proof.
  induction mid as [|[[cmd location] line] mid IH]; intros s s1 outs Hall Hrun.
  - cbn in Hrun. injection Hrun as <- <-. apply same_call_stack_refl.
  - apply Forall_cons in Hall as [Hhd Htl]. cbn in Hrun.
    destruct (il_interp_execute cmd location line s) as [[s2 next]|] eqn:E;
      [|discriminate]. cbn in Hrun.
    destruct (execute_all mid s2) as [[s3 nexts]|] eqn:E2; [|discriminate].
    cbn in Hrun. injection Hrun as <- <-.
    eapply same_call_stack_trans.
    + eapply execute_call_neutral; eassumption.
    + eapply IH; eassumption.
Qed.

(** A CALL that is not gated and finds room pushes the incremented line
    and returns its target. *)
Lemma execute_call_taken cmd target line s :
  Z.land cmd CMD_MASK = CMD_CAL -> condition_fails cmd s = false ->
  call_ok s -> call_stack_top s < 20 ->
  exists s1,
    il_interp_execute cmd target line s = Some (s1, target) /\
    call_ok s1 /\
    call_stack_top s1 = call_stack_top s + 1 /\
    call_view s1 = call_view s ++ [line_incr line].
Proof.
  intros Hop Hcond Hok Hroom. rewrite (execute_call _ _ _ _ Hop), Hcond.
  destruct (call_view_push (line_incr line) s Hok Hroom) as (Hb & Hok1 & Htop & Hview).
  destruct (call_stack_push (line_incr line) s) as [b s1]. cbn in *. subst b.
  exists s1. auto.
Qed.

(** A CALL on a full call stack changes nothing and falls through. *)
Lemma execute_call_full cmd target line s :
  Z.land cmd CMD_MASK = CMD_CAL -> 20 <= call_stack_top s ->
  il_interp_execute cmd target line s = Some (s, line_incr line).
Proof.
  intros Hop Hfull. rewrite (execute_call _ _ _ _ Hop).
  rewrite (call_stack_push_full _ _ Hfull).
  now destruct (condition_fails cmd s).
Qed.

(** A RET that is not gated pops the newest return line and returns it. *)
Lemma execute_ret_taken cmd operand line s older v :
  Z.land cmd CMD_MASK = CMD_RET -> condition_fails cmd s = false ->
  call_ok s -> call_view s = older ++ [v] ->
  exists s1,
    il_interp_execute cmd operand line s = Some (s1, v) /\
    call_ok s1 /\
    call_stack_top s1 = call_stack_top s - 1 /\
    call_view s1 = older.
Proof.
  intros Hop Hcond Hok Hview. rewrite (execute_ret _ _ _ _ Hop), Hcond.
  destruct (call_view_pop older v s Hok Hview) as (Hpop & Hok1 & Htop & Hview1).
  rewrite Hpop. eauto.
Qed.

(** Nested unconditional CALLs that fit all branch, and stack their
    return lines in order. *)
Lemma nested_calls calls : forall s,
  call_ok s -> call_stack_top s + Z.of_nat (length calls) <= 20 ->
  exists s1,
    execute_all (map call_instr calls) s = Some (s1, map snd calls) /\
    call_ok s1 /\
    call_stack_top s1 = call_stack_top s + Z.of_nat (length calls) /\
    call_view s1 = call_view s ++ map (fun c => line_incr c.1) calls.
Proof.
  induction calls as [|[line target] calls IH]; intros s Hok Hfit.
  - exists s. cbn. rewrite app_nil_r. repeat split; [apply Hok .. | lia].
  - cbn [length] in Hfit.
    destruct (execute_call_taken CMD_CAL target line s) as (s1 & Hex & Hok1 & Htop1 & Hview1);
      [reflexivity | reflexivity | assumption | lia |].
    destruct (IH s1 Hok1) as (s2 & Hrun & Hok2 & Htop2 & Hview2); [lia|].
    exists s2. cbn [map execute_all call_instr fst snd].
    change (il_interp_execute CMD_CAL (line, target).2 (line, target).1 s)
      with (il_interp_execute CMD_CAL target line s).
    rewrite Hex. cbn. rewrite Hrun. cbn.
    repeat split; [apply Hok2 .. | |].
    + rewrite Htop2, Htop1. cbn [length]. lia.
    + rewrite Hview2, Hview1, <- app_assoc. reflexivity.
Qed.

(** As many unconditional RETs as there are live return lines return them
    newest first. *)
Lemma nested_rets lines : forall older s,
  call_ok s -> call_view s = older ++ lines ->
  exists s1,
    execute_all (replicate (length lines) ret_instr) s = Some (s1, rev lines) /\
    call_ok s1 /\
    call_stack_top s1 = call_stack_top s - Z.of_nat (length lines) /\
    call_view s1 = older.
Proof.
  induction lines as [|v lines IH] using rev_ind; intros older s Hok Hview.
  - exists s. cbn. rewrite app_nil_r in Hview. repeat split; [apply Hok .. | lia | assumption].
  - rewrite app_assoc in Hview.
    destruct (execute_ret_taken CMD_RET 0 0 s (older ++ lines) v)
      as (s1 & Hex & Hok1 & Htop1 & Hview1); [reflexivity | reflexivity | assumption .. |].
    destruct (IH older s1 Hok1 Hview1) as (s2 & Hrun & Hok2 & Htop2 & Hview2).
    exists s2. rewrite length_app, Nat.add_comm. cbn [length Nat.add replicate execute_all ret_instr].
    rewrite Hex. cbn. rewrite Hrun. cbn. rewrite rev_app_distr. cbn.
    repeat split; [apply Hok2 .. | | assumption].
    rewrite Htop2, Htop1. lia.
Qed.

End CallRet.

Section CallRetClaims.
Context {Mem : Type}.
Implicit Types (s : il_state Mem).

(** C4. CALL/RET round trip.  From a call stack of depth at most 19, an
    unconditional CALL at [line] with [target] pushes the incremented line
    and returns [target]; after any instructions other than CALL and RET, an
    unconditional RET returns that incremented line and the call stack is
    as it was before the CALL.  From an empty call stack 20 nested CALLs all
    branch and 20 RETs return their lines newest first; a 21st CALL leaves
    the state unchanged and falls through to the incremented line. *)
Theorem call_ret_round_trip s :
  call_ok s ->
  (forall cmd_call cmd_ret line target mid operand line_ret,
     call_stack_top s <= 19 ->
     Z.land cmd_call CMD_MASK = CMD_CAL -> flag cmd_call FLG_CND = false ->
     Z.land cmd_ret CMD_MASK = CMD_RET -> flag cmd_ret FLG_CND = false ->
     Forall call_neutral mid ->
     exists s1,
       il_interp_execute cmd_call target line s = Some (s1, target) /\
       call_stack_top s1 = call_stack_top s + 1 /\
       call_view s1 = call_view s ++ [line_incr line] /\
       forall s2 outs,
         execute_all mid s1 = Some (s2, outs) ->
         exists s3,
           il_interp_execute cmd_ret operand line_ret s2 = Some (s3, line_incr line) /\
           call_stack_top s3 = call_stack_top s /\
           call_view s3 = call_view s) /\
  (forall calls,
     call_stack_top s = 0 -> length calls = 20%nat ->
     exists s1 s2,
       execute_all (map call_instr calls) s = Some (s1, map snd calls) /\
       call_stack_top s1 = 20 /\
       execute_all (replicate 20 ret_instr) s1 =
         Some (s2, rev (map (fun c => line_incr c.1) calls)) /\
       call_stack_top s2 = 0 /\
       forall cmd line target,
         Z.land cmd CMD_MASK = CMD_CAL ->
         il_interp_execute cmd target line s1 = Some (s1, line_incr line)) /\
  (forall line, 0 <= line < 65535 -> line_incr line = line + 1).
Proof.
  intros Hok. split; [|split].
  - intros cmd_call cmd_ret line target mid operand line_ret
           Hroom Hcal Hcu Hret Hru Hmid.
    destruct (execute_call_taken cmd_call target line s Hcal)
      as (s1 & Hex & Hok1 & Htop1 & Hview1);
      [now apply condition_fails_unconditional | assumption | lia |].
    exists s1. repeat split; try assumption.
    intros s2 outs Hrun.
    pose proof (execute_all_call_neutral mid s1 s2 outs Hmid Hrun) as Hsame.
    destruct (execute_ret_taken cmd_ret operand line_ret s2 (call_view s) (line_incr line) Hret)
      as (s3 & Hex3 & Hok3 & Htop3 & Hview3).
    + now apply condition_fails_unconditional.
    + eapply same_call_stack_ok; eassumption.
    + now rewrite (same_call_stack_view _ _ Hsame).
    + exists s3. repeat split; try assumption.
      destruct Hsame as [_ Htop2]. lia.
  - intros calls Hempty Hlen.
    destruct (nested_calls calls s Hok) as (s1 & Hrun & Hok1 & Htop1 & Hview1); [lia|].
    destruct (nested_rets (map (fun c => line_incr c.1) calls) (call_view s) s1 Hok1 Hview1)
      as (s2 & Hrets & Hok2 & Htop2 & Hview2).
    rewrite length_map, Hlen in Hrets, Htop2.
    exists s1, s2. repeat split; try assumption; try lia.
    intros cmd line target Hcal. apply execute_call_full; [assumption | lia].
  - apply line_incr_small.
Qed.

Lemma pushed_by_other cmd line s :
  Z.land cmd CMD_MASK <> CMD_CAL -> pushed_by cmd line s = [].
Proof.
  intros H. unfold pushed_by.
  destruct (decode_opcode (Z.land cmd CMD_MASK)) eqn:Hop; try reflexivity.
  apply decode_opcode_cal in Hop. contradiction.
Qed.

Lemma pushed_by_call cmd line s :
  Z.land cmd CMD_MASK = CMD_CAL ->
  pushed_by cmd line s =
    if condition_fails cmd s then []
    else if (call_stack_push (line_incr line) s).1 then [line_incr line] else [].
Proof. intros H. unfold pushed_by. now rewrite H. Qed.

(** The depth counter stays in range over one [il_interp_execute]. *)
Lemma execute_call_stack_top cmd location line s s1 next :
  0 <= call_stack_top s <= 20 ->
  il_interp_execute cmd location line s = Some (s1, next) ->
  0 <= call_stack_top s1 <= 20.
Proof.
  intros Hr Hex.
  destruct (decide (Z.land cmd CMD_MASK = CMD_CAL)) as [Hcal|Hcal];
    [|destruct (decide (Z.land cmd CMD_MASK = CMD_RET)) as [Hret|Hret]].
  - rewrite (execute_call _ _ _ _ Hcal) in Hex. unfold call_stack_push in Hex.
    destruct (Z.geb_spec (call_stack_top s) CALL_STACK_MAX_DEPTH);
      unfold CALL_STACK_MAX_DEPTH in *; crunch; cbn; lia.
  - rewrite (execute_ret _ _ _ _ Hret) in Hex. unfold call_stack_pop in Hex.
    destruct (Z.leb_spec (call_stack_top s) 0); crunch; cbn; lia.
  - destruct (execute_call_neutral cmd location line s s1 next) as [_ Htop];
      [now split | assumption | lia].
Qed.

(** In a reached state the live return lines were all written by
    successful pushes. *)
Lemma reach_call_view s written :
  reach s written -> call_ok s /\ forall v, v ∈ call_view s -> v ∈ written.
Proof.
  induction 1 as [cb s Hlen | s written cmd location line s1 next _ [Hok Hin] Hex].
  - split; [split; [exact Hlen | cbn; lia] | ].
    unfold call_view. cbn. intros v Hv. inversion Hv.
  - destruct (decide (Z.land cmd CMD_MASK = CMD_CAL)) as [Hcal|Hcal];
      [|destruct (decide (Z.land cmd CMD_MASK = CMD_RET)) as [Hret|Hret]].
    + rewrite (pushed_by_call _ _ _ Hcal).
      rewrite (execute_call _ _ _ _ Hcal) in Hex.
      destruct (condition_fails cmd s); [injection Hex as <- <-; auto|].
      destruct (Z.lt_ge_cases (call_stack_top s) 20) as [Hroom|Hfull].
      * destruct (call_view_push (line_incr line) s Hok Hroom) as (Hb & Hok1 & _ & Hview).
        destruct (call_stack_push (line_incr line) s) as [b s2]. cbn in *. subst b.
        injection Hex as <- <-. split; [assumption|].
        intros v. rewrite Hview, elem_of_app, list_elem_of_singleton.
        intros [Hv | ->]; [right; auto | left].
      * rewrite (call_stack_push_full _ _ Hfull) in *. cbn.
        injection Hex as <- <-. auto.
    + rewrite (pushed_by_other _ _ _ Hcal). cbn.
      rewrite (execute_ret _ _ _ _ Hret) in Hex.
      destruct (condition_fails cmd s); [injection Hex as <- <-; auto|].
      destruct (call_view s) as [|v0 l0] eqn:Hview using rev_ind.
      * pose proof (call_view_length s Hok) as Hl. rewrite Hview in Hl. cbn in Hl.
        rewrite call_stack_pop_empty in Hex by (destruct Hok; lia).
        injection Hex as <- <-. split; [assumption|]. now rewrite Hview.
      * clear IHl0.
        destruct (call_view_pop l0 v0 s Hok Hview) as (Hpop & Hok1 & _ & Hview1).
        rewrite Hpop in Hex. injection Hex as <- <-. split; [assumption|].
        intros v Hv. apply Hin. rewrite Hview1 in Hv.
        apply elem_of_app. now left.
    + rewrite (pushed_by_other _ _ _ Hcal). cbn.
      assert (same_call_stack s s1) as Hsame
        by (apply (execute_call_neutral cmd location line s s1 next);
            [split; [exact Hcal | exact Hret] | exact Hex]).
      split; [eapply same_call_stack_ok; eassumption|].
      now rewrite (same_call_stack_view _ _ Hsame).
Qed.

End CallRetClaims.

Section CallStackInvariant.
Context {Mem : Type}.
Implicit Types (s : il_state Mem).

(** What a pop returns is a live return line. *)
Lemma call_stack_pop_in_view s v s1 :
  call_ok s -> call_stack_pop s = (Some v, s1) -> v ∈ call_view s.
Proof.
  intros Hok Hpop.
  destruct (call_view s) as [|v0 l0] eqn:Hview using rev_ind.
  - pose proof (call_view_length s Hok) as Hl. rewrite Hview in Hl. cbn in Hl.
    rewrite call_stack_pop_empty in Hpop by (destruct Hok; lia). discriminate.
  - destruct (call_view_pop l0 v0 s Hok Hview) as (Hpop1 & _).
    rewrite Hpop1 in Hpop. injection Hpop as -> _.
    apply elem_of_app. right. apply list_elem_of_singleton. reflexivity.
Qed.

(** C9. Call-stack depth invariant.  [il_interp_init] sets the depth
    counter to 0; a push never takes it past 20 and a pop never takes it
    below 0; every [il_interp_execute] that starts with the counter in 0..20
    ends with it in 0..20, and the CALL and RET instructions, the only ones
    that touch the call stack, always complete.  In every state reached from
    [il_interp_init] the counter is in 0..20 and whatever return line a pop
    reads was written earlier by a successful push. *)
Theorem call_stack_depth_invariant :
  (forall cb s, call_stack_top (il_interp_init cb s) = 0) /\
  (forall addr s,
     call_stack_top s <= 20 -> call_stack_top (call_stack_push addr s).2 <= 20) /\
  (forall s, 0 <= call_stack_top s -> 0 <= call_stack_top (call_stack_pop s).2) /\
  (forall cmd location line s s1 next,
     0 <= call_stack_top s <= 20 ->
     il_interp_execute cmd location line s = Some (s1, next) ->
     0 <= call_stack_top s1 <= 20) /\
  (forall cmd location line s,
     Z.land cmd CMD_MASK = CMD_CAL \/ Z.land cmd CMD_MASK = CMD_RET ->
     is_Some (il_interp_execute cmd location line s)) /\
  (forall s written,
     reach s written ->
     0 <= call_stack_top s <= 20 /\
     forall v s1, call_stack_pop s = (Some v, s1) -> v ∈ written).
Proof.
  repeat apply conj.
  - reflexivity.
  - intros addr s H. unfold call_stack_push, CALL_STACK_MAX_DEPTH.
    destruct (Z.geb_spec (call_stack_top s) 20); cbn; lia.
  - intros s H. unfold call_stack_pop.
    destruct (Z.leb_spec (call_stack_top s) 0); cbn; lia.
  - intros cmd location line s s1 next. apply execute_call_stack_top.
  - intros cmd location line s [H|H].
    + rewrite (execute_call _ _ _ _ H).
      destruct (condition_fails cmd s); [eauto|].
      destruct (call_stack_push (line_incr line) s) as [[] ?]; eauto.
    + rewrite (execute_ret _ _ _ _ H).
      destruct (condition_fails cmd s); [eauto|].
      destruct (call_stack_pop s) as [[] ?]; eauto.
  - intros s written Hreach.
    destruct (reach_call_view s written Hreach) as [Hok Hin].
    split; [apply Hok|]. intros v s1 Hpop.
    eapply Hin, call_stack_pop_in_view; eassumption.
Qed.

End CallStackInvariant.

(** ** The evaluation stack *)

Section EvalStack.
Context {Mem : Type}.
Implicit Types (s : il_state Mem).

(** At capacity a push stores nothing and still advances the counter. *)
Lemma eval_stack_push_at_capacity cmd acc s :
  eval_stack_top s = 20 ->
  eval_stack_push cmd acc s = Some (set_eval (eval_stack s) 21 s).
Proof. intros H. unfold eval_stack_push. rewrite H. reflexivity. Qed.

Lemma eval_stack_push_room cmd acc s :
  0 <= eval_stack_top s < 20 ->
  eval_stack_push cmd acc s =
    Some (set_eval (<[Z.to_nat (eval_stack_top s) :=
                       {| command := cmd; entry_accum := acc |}]> (eval_stack s))
                   (eval_stack_top s + 1) s).
Proof.
  intros H. unfold eval_stack_push, EVAL_STACK_MAX_DEPTH, INT_MAX.
  destruct (Z.ltb_spec (eval_stack_top s) 20); [|lia].
  destruct (Z.eqb_spec (eval_stack_top s) 2147483647); [lia | reflexivity].
Qed.

Lemma eval_stack_pop_empty s :
  eval_stack_top s = 0 -> eval_stack_pop s = (None, s).
Proof. intros H. unfold eval_stack_pop. now rewrite H. Qed.

Lemma eval_stack_pop_at_capacity s :
  20 <= eval_stack_top s -> eval_stack_pop s = (None, s).
Proof.
  intros H. unfold eval_stack_pop, EVAL_STACK_MAX_DEPTH.
  destruct (Z.geb_spec (eval_stack_top s) 20); [|lia].
  now rewrite orb_true_r.
Qed.

Lemma eval_stack_pop_live s :
  0 < eval_stack_top s < 20 ->
  eval_stack_pop s =
    (let e := default {| command := 0; entry_accum := 0 |}
                      (eval_stack s !! Z.to_nat (eval_stack_top s - 1)) in
     Some (command e, entry_accum e),
     set_eval (eval_stack s) (eval_stack_top s - 1) s).
Proof.
  intros H. unfold eval_stack_pop, EVAL_STACK_MAX_DEPTH.
  destruct (Z.eqb_spec (eval_stack_top s) 0); [lia|].
  destruct (Z.geb_spec (eval_stack_top s) 20); [lia | reflexivity].
Qed.

(** Below depth 19 a push followed by a pop gives back what was pushed and
    restores the depth. *)
Lemma eval_stack_push_pop cmd acc s :
  length (eval_stack s) = 20%nat -> 0 <= eval_stack_top s < 19 ->
  exists s1 s2,
    eval_stack_push cmd acc s = Some s1 /\
    eval_stack_pop s1 = (Some (cmd, acc), s2) /\
    eval_stack_top s2 = eval_stack_top s.
Proof.
  intros Hlen Htop. eexists _, _. split; [apply eval_stack_push_room; lia|].
  rewrite eval_stack_pop_live by (cbn; lia). cbn.
  replace (eval_stack_top s + 1 - 1) with (eval_stack_top s) by lia.
  rewrite list_lookup_insert_eq by lia. cbn. split; reflexivity.
Qed.

(** A close-group on an empty evaluation stack does nothing. *)
Lemma close_group_on_empty cmd operand line s :
  Z.land cmd CMD_MASK = CMD_PAR -> eval_stack_top s = 0 ->
  il_interp_execute cmd operand line s = Some (s, line_incr line).
Proof.
  intros Hop Htop. unfold il_interp_execute. rewrite Hop.
  change (decode_opcode CMD_PAR) with OP_PAR.
  now rewrite (eval_stack_pop_empty _ Htop).
Qed.

(** C6. DIV by zero.  The code divides without a test: with a zero right
    operand the operator has no defined result, whether the DIV is
    immediate, reads its operand from memory or is closed by a close-group,
    so the operator evaluation is not total. *)
Theorem div_by_zero_undefined :
  (forall op1 s, evaluate_operator CMD_DIV op1 0 s = None) /\
  (forall line s, il_interp_execute (Z.lor CMD_DIV FLG_IMM) 0 line s = None) /\
  execute_all [(Z.lor CMD_LOAD FLG_IMM, 7, 0); (CMD_DIV, 40001, 1)] demo_init = None /\
  execute_all [(Z.lor CMD_LOAD FLG_IMM, 7, 0);
               (Z.lor (Z.lor CMD_DIV FLG_IMM) FLG_PAR, 0, 1);
               (CMD_PAR, 0, 2)] demo_init = None.
Proof. repeat split. Qed.

End EvalStack.

(** C1. Evaluation-stack overflow.  A push onto a stack that holds 20
    entries stores nothing, but the depth counter advances to 21: after 20
    [LOAD_{] lines the 21st leaves the array as it was and the counter at
    21. *)
Theorem eval_stack_push_overflow_advances_depth :
  (forall (cmd acc : Z) (s : il_state demo_memory),
     eval_stack_top s = 20 ->
     exists s1, eval_stack_push cmd acc s = Some s1 /\
                eval_stack s1 = eval_stack s /\ eval_stack_top s1 = 21) /\
  exists s20 outs s21,
    execute_all (replicate 20 open_group) demo_init = Some (s20, outs) /\
    eval_stack_top s20 = 20 /\
    il_interp_execute (Z.lor CMD_LOAD FLG_PAR) 1 20 s20 = Some (s21, 21) /\
    eval_stack s21 = eval_stack s20 /\
    eval_stack_top s21 = 21.
Proof.
  split.
  - intros cmd acc s H. eexists. split; [now apply eval_stack_push_at_capacity|].
    now split.
  - exists (nested 20), (replicate 20 1%Z), (nested 21). repeat split.
Qed.

(** C2. Evaluation-stack pop at capacity.  After 20 [LOAD_{] lines the stack
    holds 20 entries, and a pop fails all the same: the close-group is
    skipped, the entries stay and the accumulator keeps the group's value. *)
Theorem eval_stack_pop_fails_at_capacity :
  exists s20 outs,
    execute_all (replicate 20 open_group) demo_init = Some (s20, outs) /\
    eval_stack_top s20 = 20 /\
    eval_view s20 =
      {| command := 32769; entry_accum := 0 |}
        :: replicate 19 {| command := 32769; entry_accum := 1 |} /\
    eval_stack_pop s20 = (None, s20) /\
    il_interp_execute CMD_PAR 0 20 s20 = Some (s20, 21).
Proof.
  exists (nested 20), (replicate 20 1%Z). repeat split.
Qed.

(** ** The demo's address decoder and memory *)

Lemma addr_decode_unfold (a : Z) :
  0 <= a ->
  addr_decode a =
    if (a mod 10000 =? 0) || (a mod 10000 >? MEM_SIZE) then None
    else if (a / 10000 =? 0) || (a / 10000 =? 1)
         then Some (a / 10000, a mod 10000 - 1)
    else if (a / 10000 =? 3) || (a / 10000 =? 4)
         then Some (a / 10000 - 1, a mod 10000 - 1)
    else None.
Proof.
  intros H. unfold addr_decode.
  rewrite Z.quot_div_nonneg, Z.rem_mod_nonneg by lia. reflexivity.
Qed.

(** The decoder in one equation: the column is the region digit, less one
    for the word banks, and the row is the slot less one. *)
Lemma addr_decode_valid (a : Z) :
  0 <= a -> valid_address a ->
  addr_decode a =
    Some (if a / 10000 <? 2 then a / 10000 else a / 10000 - 1, a mod 10000 - 1).
Proof.
  intros H [Hslot Hreg]. rewrite addr_decode_unfold by assumption. unfold MEM_SIZE.
  destruct (Z.eqb_spec (a mod 10000) 0); [lia|].
  destruct (Z.gtb_spec (a mod 10000) 26); [lia|]. cbn [orb].
  destruct Hreg as [-> | [-> | [-> | ->]]]; reflexivity.
Qed.

Lemma addr_decode_invalid (a : Z) :
  0 <= a -> ~ valid_address a -> addr_decode a = None.
Proof.
  intros H Hinv. rewrite addr_decode_unfold by assumption.
  unfold valid_address, MEM_SIZE in *.
  destruct (Z.eqb_spec (a mod 10000) 0); [reflexivity|].
  destruct (Z.gtb_spec (a mod 10000) 26); [reflexivity|]. cbn [orb].
  assert (0 <= a mod 10000) by (apply Z.mod_pos_bound; lia).
  destruct (Z.eqb_spec (a / 10000) 0); [exfalso; apply Hinv; lia|].
  destruct (Z.eqb_spec (a / 10000) 1); [exfalso; apply Hinv; lia|].
  destruct (Z.eqb_spec (a / 10000) 3); [exfalso; apply Hinv; lia|].
  destruct (Z.eqb_spec (a / 10000) 4); [exfalso; apply Hinv; lia|].
  reflexivity.
Qed.

(** C7. For a 16-bit address, [addr_decode] succeeds exactly on the valid
    addresses (slot [a mod 10000] in 1..26, region digit [a / 10000] in
    0, 1, 3, 4); it then returns the column of the region (0 and 1 for the
    bit banks, 2 and 3 for the word banks 3xxxx and 4xxxx) with the row
    [a mod 10000 - 1].  It is a function of the address alone; every other
    address is rejected, so that a read of it gives 0 and a write to it
    leaves the memory as it was. *)
Theorem addr_decode_spec (a : Z) :
  0 <= a < 65536 ->
  (is_Some (addr_decode a) <-> valid_address a) /\
  (forall col row,
     addr_decode a = Some (col, row) ->
     row = a mod 10000 - 1 /\
     ((a / 10000 = 0 /\ col = 0) \/ (a / 10000 = 1 /\ col = 1) \/
      (a / 10000 = 3 /\ col = 2) \/ (a / 10000 = 4 /\ col = 3))) /\
  (~ valid_address a ->
     addr_decode a = None /\
     forall v invert m, mem_get a invert m = 0 /\ mem_set a v invert m = m).
Proof.
  intros Ha. assert (0 <= a) as Hnn by lia.
  assert (valid_address a \/ ~ valid_address a) as Hdec.
  { unfold valid_address. lia. }
  split; [split|split].
  - intros [p Hp]. destruct Hdec as [Hv|Hv]; [assumption|].
    rewrite (addr_decode_invalid a Hnn Hv) in Hp. discriminate.
  - intros Hv. rewrite (addr_decode_valid a Hnn Hv). eauto.
  - intros col row Hdecode. destruct Hdec as [Hv|Hv].
    + rewrite (addr_decode_valid a Hnn Hv) in Hdecode.
      injection Hdecode as <- <-. split; [reflexivity|].
      destruct Hv as [_ [-> | [-> | [-> | ->]]]]; cbn; lia.
    + rewrite (addr_decode_invalid a Hnn Hv) in Hdecode. discriminate.
  - intros Hv. pose proof (addr_decode_invalid a Hnn Hv) as Hnone.
    split; [exact Hnone|]. intros v invert m.
    unfold mem_get, mem_set. rewrite Hnone. split; reflexivity.
Qed.

Lemma cell_update_read {A : Type} (d : A) (a : list (list A)) (col row : Z) (v : A) :
  (Z.to_nat col < length a)%nat ->
  Forall (fun r => length r = 26%nat) a ->
  (Z.to_nat row < 26)%nat ->
  cell d (cell_update a col row v) col row = v.
Proof.
  intros Hcol Hrows Hrow. unfold cell, cell_update.
  rewrite list_lookup_alter_eq.
  destruct (lookup_lt_is_Some_2 a (Z.to_nat col) Hcol) as [r Hr].
  rewrite Hr. cbn.
  rewrite list_lookup_insert_eq; [reflexivity|].
  rewrite (Forall_lookup_1 _ _ _ _ Hrows Hr). assumption.
Qed.

Lemma logical_not_bit (v : Z) : logical_not (bit_of v) = 1 - bit_of v.
Proof. unfold logical_not, bit_of, truthy. now destruct (v =? 0). Qed.

(** On 16 bits the complement is [65535 - v], and it flips every bit. *)
Lemma bitwise_not_16 (v : Z) :
  0 <= v < 65536 ->
  bitwise_not v = 65535 - v /\
  forall i, 0 <= i < 16 -> Z.testbit (bitwise_not v) i = negb (Z.testbit v i).
Proof.
  intros Hv. unfold bitwise_not, uint16. split.
  - unfold Z.lnot, Z.pred. symmetry.
    apply (Z.mod_unique_pos _ _ (-1)); lia.
  - intros i Hi. change 65536 with (2 ^ 16).
    rewrite Z.mod_pow2_bits_low by lia. apply Z.lnot_spec. lia.
Qed.

(** C8. Memory round trip.  On a valid address, a read straight after
    [mem_set] without invert gives, without invert, the value itself in a
    word region and 1 or 0 in a bit region according to whether the value is
    nonzero; with invert it gives [1 - bit] in a bit region and the 16-bit
    bitwise complement of the value in a word region. *)
Theorem memory_round_trip (m : demo_memory) (a v : Z) :
  demo_wf m -> 0 <= a < 65536 -> 0 <= v < 65536 -> valid_address a ->
  (a / 10000 = 0 \/ a / 10000 = 1 ->
     mem_get a false (mem_set a v false m) = bit_of v /\
     mem_get a true (mem_set a v false m) = 1 - bit_of v) /\
  (a / 10000 = 3 \/ a / 10000 = 4 ->
     mem_get a false (mem_set a v false m) = v /\
     mem_get a true (mem_set a v false m) = 65535 - v /\
     forall i, 0 <= i < 16 ->
       Z.testbit (mem_get a true (mem_set a v false m)) i = negb (Z.testbit v i)).
Proof.
  intros (Hb & Hbrows & Hw & Hwrows) Ha Hv Hvalid.
  assert (0 <= a) as Hnn by lia.
  pose proof (addr_decode_valid a Hnn Hvalid) as Hdec.
  destruct Hvalid as [Hslot _].
  split; intros Hreg.
  - assert ((a / 10000 <? 2) = true) as Hlt by (apply Z.ltb_lt; lia).
    rewrite Hlt in Hdec.
    unfold mem_get, mem_set. rewrite !Hdec. cbn beta iota. rewrite !Hlt.
    cbn [bit_memory word_memory].
    rewrite cell_update_read by (assumption || lia).
    replace (if truthy v then 1 else 0) with (bit_of v)
      by (unfold bit_of, truthy; now destruct (v =? 0)).
    split; [reflexivity | apply logical_not_bit].
  - assert ((a / 10000 <? 2) = false) as Hlt by (apply Z.ltb_ge; lia).
    assert ((a / 10000 - 1 <? 2) = false) as Hlt1 by (apply Z.ltb_ge; lia).
    rewrite Hlt in Hdec.
    unfold mem_get, mem_set. rewrite !Hdec. cbn beta iota. rewrite !Hlt1.
    cbn [bit_memory word_memory].
    rewrite cell_update_read by (assumption || lia).
    assert (uint16 (spin_button_set_value v) = v) as ->.
    { unfold spin_button_set_value, uint16. rewrite Z.mod_small; lia. }
    destruct (bitwise_not_16 v Hv) as [Hnot Hbits].
    repeat split; assumption.
Qed.

(** ** The statements at concrete inputs *)

(** [JUMP_CN 7] at line 3 of the demo: taken with the accumulator at 0. *)
Lemma jump_conditional_negate_witness :
  Z.land 24594 CMD_MASK = CMD_JMP /\
  il_interp_execute 24594 7 3 demo_init = Some (demo_init, 7).
Proof.
  split; [reflexivity|].
  destruct (jump_conditional_negate 24594 7 3 demo_init eq_refl) as (Htaken & _).
  apply Htaken; reflexivity.
Defined.

(** A CALL at line 3 of the freshly initialised demo, then a RET. *)
Lemma call_ret_round_trip_witness :
  call_ok demo_init /\
  exists s1 s3,
    il_interp_execute CMD_CAL 7 3 demo_init = Some (s1, 7) /\
    il_interp_execute CMD_RET 0 9 s1 = Some (s3, 4) /\
    call_stack_top s3 = 0.
Proof.
  assert (call_ok demo_init) as Hok by (split; [reflexivity | cbn; lia]).
  split; [exact Hok|].
  destruct (call_ret_round_trip demo_init Hok) as (Hone & _ & _).
  destruct (Hone CMD_CAL CMD_RET 3 7 [] 0 9) as (s1 & Hcall & _ & _ & Hret);
    [cbn; lia | reflexivity | reflexivity | reflexivity | reflexivity | constructor |].
  destruct (Hret s1 [] eq_refl) as (s3 & Hex & Htop & _).
  exists s1, s3. repeat split; assumption.
Defined.

(** [RET] on the freshly initialised demo. *)
Lemma ret_on_empty_call_stack_witness :
  Z.land CMD_RET CMD_MASK = CMD_RET /\
  call_stack_top demo_init = 0 /\
  flag CMD_RET FLG_CND = false /\
  il_interp_execute CMD_RET 0 5 demo_init = Some (demo_init, 65535).
Proof.
  split; [reflexivity|]. split; [reflexivity|]. split; [reflexivity|].
  apply (ret_on_empty_call_stack CMD_RET 0 5 demo_init eq_refl eq_refl).
  left. reflexivity.
Defined.

(** Address 40001: the first word of the second word bank. *)
Lemma addr_decode_spec_witness :
  0 <= 40001 < 65536 /\
  (is_Some (addr_decode 40001) <-> valid_address 40001).
Proof.
  assert (0 <= 40001 < 65536) as Hrange by lia.
  split; [exact Hrange|].
  exact (proj1 (addr_decode_spec 40001 Hrange)).
Defined.

(** Writing 1234 to address 40001 of the demo's memory and reading it back. *)
Lemma memory_round_trip_witness :
  demo_wf demo_start /\ valid_address 40001 /\
  mem_get 40001 false (mem_set 40001 1234 false demo_start) = 1234 /\
  mem_get 40001 true (mem_set 40001 1234 false demo_start) = 65535 - 1234.
Proof.
  assert (demo_wf demo_start) as Hwf
    by (repeat split; try reflexivity; repeat constructor).
  assert (valid_address 40001) as Hvalid
    by (split; [change (40001 mod 10000) with 1; lia
               | right; right; right; reflexivity]).
  split; [exact Hwf|]. split; [exact Hvalid|].
  destruct (memory_round_trip demo_start 40001 1234 Hwf) as [_ Hword];
    [lia | lia | exact Hvalid |].
  destruct Hword as (Hget & Hinv & _); [right; reflexivity|].
  split; assumption.
Defined.

(** Code byte 255 with every flag set. *)
Lemma undefined_opcode_is_nop_witness :
  ~ (0 <= Z.land 61695 CMD_MASK <= 21) /\
  il_interp_execute 61695 40001 3 demo_init = Some (demo_init, 4).
Proof.
  assert (~ (0 <= Z.land 61695 CMD_MASK <= 21)) as Hcode
    by (change (Z.land 61695 CMD_MASK) with 255; lia).
  split; [exact Hcode|].
  exact (proj1 (undefined_opcode_is_nop 61695 40001 3 demo_init Hcode)).
Defined.

(** * Further properties *)

(** ** The parser's string tests *)

Lemma occurs_empty (c : ascii) : ~ occurs c EmptyString.
Proof. intros (pre & post & H). destruct pre; discriminate H. Qed.

Lemma occurs_cons (c a : ascii) (str : string) :
  occurs c (String a str) <-> a = c \/ occurs c str.
Proof.
  split.
  - intros (pre & post & H). destruct pre as [|b pre]; cbn in H.
    + injection H as -> _. now left.
    + injection H as _ ->. right. now exists pre, post.
  - intros [-> | (pre & post & ->)].
    + now exists EmptyString, str.
    + now exists (String a pre), post.
Qed.

Lemma strchr_None (str : string) (c : ascii) :
  c <> Ascii.zero -> strchr str c = None <-> ~ occurs c str.
Proof.
  intros Hc. induction str as [|a str IH]; cbn.
  - destruct (Ascii.eqb_spec c Ascii.zero); [contradiction|].
    split; [intros _; apply occurs_empty | reflexivity].
  - rewrite occurs_cons. destruct (Ascii.eqb_spec a c) as [->|Hne].
    + split; [discriminate | intros H; exfalso; apply H; now left].
    + rewrite IH. tauto.
Qed.

Lemma strchr_Some (str : string) (c : ascii) (rest : string) :
  c <> Ascii.zero ->
  strchr str c = Some rest <->
  exists pre post,
    str = pre +:+ String c post /\ ~ occurs c pre /\ rest = String c post.
Proof.
  intros Hc. revert rest. induction str as [|a str IH]; intros rest; cbn.
  - destruct (Ascii.eqb_spec c Ascii.zero); [contradiction|].
    split; [discriminate|]. intros (pre & post & H & _). destruct pre; discriminate H.
  - destruct (Ascii.eqb_spec a c) as [->|Hne].
    + split.
      * intros [= <-]. exists EmptyString, str.
        split; [reflexivity|]. split; [apply occurs_empty | reflexivity].
      * intros (pre & post & H & Hpre & ->). destruct pre as [|b pre]; cbn in H.
        -- now rewrite H.
        -- injection H as <- _. exfalso. apply Hpre, occurs_cons. now left.
    + rewrite IH. split.
      * intros (pre & post & -> & Hpre & ->). exists (String a pre), post.
        split; [reflexivity|]. split; [|reflexivity].
        rewrite occurs_cons. tauto.
      * intros (pre & post & H & Hpre & ->). destruct pre as [|b pre]; cbn in H.
        -- injection H as -> _. contradiction.
        -- injection H as <- ->. exists pre, post.
           split; [reflexivity|]. split; [|reflexivity].
           intros Hocc. apply Hpre, occurs_cons. now right.
Qed.

Lemma strncmp_eq_prefix (str1 : string) : forall str2,
  strncmp_eq str1 str2 (String.length str1) = true <->
  exists rest, str2 = str1 +:+ rest.
Proof.
  induction str1 as [|a str1 IH]; intros str2; cbn.
  - split; [intros _; now exists str2 | reflexivity].
  - destruct str2 as [|b str2].
    + split; [discriminate | intros [rest H]; discriminate H].
    + rewrite andb_true_iff, IH. split.
      * intros [Hab [rest ->]]. apply Ascii.eqb_eq in Hab as ->. now exists rest.
      * intros [rest H]. injection H as -> ->. split; [apply Ascii.eqb_refl | now exists rest].
Qed.

(** [match] is the prefix test: it holds exactly when the second string
    starts with the first; in particular every string matches the empty
    one and a string shorter than the first never matches. *)
Theorem matches_is_prefix (str1 str2 : string) :
  Parser.matches str1 str2 = true <-> exists rest, str2 = str1 +:+ rest.
Proof. apply strncmp_eq_prefix. Qed.

(** [flag] finds a character other than ['_'] exactly when it occurs after
    the first ['_']. *)
Lemma parser_flag_iff (c : ascii) (str : string) :
  c <> Ascii.zero -> c <> "_"%char ->
  Parser.flag c str = true <-> occurs_after_underscore c str.
Proof.
  intros Hc Hu. unfold Parser.flag, occurs_after_underscore.
  assert ("_"%char <> Ascii.zero) as Hz by discriminate.
  split.
  - destruct (strchr str "_") as [rest|] eqn:Hfirst; [|discriminate].
    apply (strchr_Some _ _ _ Hz) in Hfirst as (pre & post & -> & Hpre & ->).
    destruct (strchr (String "_" post) c) eqn:Hflag; [intros _ | discriminate].
    exists pre, post. split; [reflexivity|]. split; [assumption|].
    assert (occurs c (String "_" post)) as Hocc.
    { apply (strchr_Some _ _ _ Hc) in Hflag as (pre1 & post1 & H & _).
      now exists pre1, post1. }
    apply occurs_cons in Hocc as [Heq | Hocc]; [congruence | assumption].
  - intros (pre & post & -> & Hpre & Hocc).
    assert (strchr (pre +:+ String "_" post) "_" = Some (String "_" post)) as ->.
    { apply (strchr_Some _ _ _ Hz). now exists pre, post. }
    destruct (strchr (String "_" post) c) eqn:Hflag; [reflexivity|].
    apply (strchr_None _ _ Hc) in Hflag. exfalso. apply Hflag, occurs_cons. now right.
Qed.

(** ** The parser *)

(** Case analysis on the 21 prefix tests of [il_interp_parse]. *)
Ltac parse_cases t :=
  repeat match goal with
    | |- context [if Parser.matches ?m t then _ else _] =>
        destruct (Parser.matches m t)
    end.

(** Each flag bit of the parsed code is the answer of the flag scan. *)
Lemma parse_flag_bits (t : string) :
  flag (Parser.il_interp_parse t) FLG_IMM = Parser.flag "I" t /\
  flag (Parser.il_interp_parse t) FLG_NEG = Parser.flag "N" t /\
  flag (Parser.il_interp_parse t) FLG_CND = Parser.flag "C" t /\
  flag (Parser.il_interp_parse t) FLG_PAR = Parser.flag "{" t.
Proof.
  unfold Parser.il_interp_parse.
  destruct (Parser.flag "I" t), (Parser.flag "N" t),
           (Parser.flag "C" t), (Parser.flag "{" t);
    parse_cases t; repeat split.
Qed.

(** The parsed code is a 16-bit value made of a defined code byte and of
    flag bits only: bits 8 to 11 are clear, and [il_interp_execute] finds a
    case for it. *)
Theorem parse_code_shape (t : string) :
  0 <= Parser.il_interp_parse t < 65536 /\
  0 <= Z.land (Parser.il_interp_parse t) CMD_MASK <= 21 /\
  Z.land (Parser.il_interp_parse t) 3840 = 0 /\
  decode_opcode (Z.land (Parser.il_interp_parse t) CMD_MASK) <> OP_NONE.
Proof.
  unfold Parser.il_interp_parse.
  destruct (Parser.flag "I" t), (Parser.flag "N" t),
           (Parser.flag "C" t), (Parser.flag "{" t);
    parse_cases t; vm_compute; repeat split; discriminate.
Qed.

(** A flag bit is set in the parsed code exactly when its character occurs
    in the token after the first ['_']; a token without ['_'] has no flag. *)
Theorem parse_flag_iff (t : string) :
  (flag (Parser.il_interp_parse t) FLG_IMM = true <-> occurs_after_underscore "I" t) /\
  (flag (Parser.il_interp_parse t) FLG_NEG = true <-> occurs_after_underscore "N" t) /\
  (flag (Parser.il_interp_parse t) FLG_CND = true <-> occurs_after_underscore "C" t) /\
  (flag (Parser.il_interp_parse t) FLG_PAR = true <-> occurs_after_underscore "{" t) /\
  (~ occurs "_" t -> Parser.il_interp_parse t = Z.land (Parser.il_interp_parse t) CMD_MASK).
Proof.
  destruct (parse_flag_bits t) as (HI & HN & HC & HG).
  rewrite HI, HN, HC, HG.
  repeat split; try (apply parser_flag_iff; discriminate).
  intros Hno. unfold Parser.il_interp_parse, Parser.flag.
  assert (strchr t "_" = None) as -> by (apply strchr_None; [discriminate | assumption]).
  parse_cases t; reflexivity.
Qed.

(** A code byte left alone by the flag bits. *)
Lemma code_byte_of_flags (base : Z) (fi fn fc fg : bool) :
  0 <= base < 256 ->
  Z.land
    (uint16
       (let ret := if fi then Z.lor base FLG_IMM else base in
        let ret := if fn then Z.lor ret FLG_NEG else ret in
        let ret := if fc then Z.lor ret FLG_CND else ret in
        if fg then Z.lor ret FLG_PAR else ret))
    CMD_MASK = base.
Proof.
  intros Hb. unfold uint16, CMD_MASK. change 65536 with (2 ^ 16). change 255 with (Z.ones 8).
  rewrite <- Z.land_ones by lia. rewrite <- Z.land_assoc.
  change (Z.land (Z.ones 16) (Z.ones 8)) with (Z.ones 8).
  assert (forall x f, Z.land f (Z.ones 8) = 0 ->
                      Z.land (Z.lor x f) (Z.ones 8) = Z.land x (Z.ones 8)) as Hdrop.
  { intros x f Hf. now rewrite Z.land_lor_distr_l, Hf, Z.lor_0_r. }
  destruct fi, fn, fc, fg; cbn zeta; rewrite ?Hdrop by reflexivity;
    rewrite Z.land_ones by lia; apply Z.mod_small; lia.
Qed.

(** First match wins, and no mnemonic hides another: a token that starts
    with a mnemonic gets that mnemonic's code byte, whatever follows it. *)
Theorem parse_mnemonic_prefix (m : string) (k : Z) (rest : string) :
  In (m, k) mnemonics ->
  Z.land (Parser.il_interp_parse (m +:+ rest)) CMD_MASK = k.
Proof.
  intros Hin. unfold Parser.il_interp_parse.
  generalize (Parser.flag "I" (m +:+ rest)) (Parser.flag "N" (m +:+ rest))
             (Parser.flag "C" (m +:+ rest)) (Parser.flag "{" (m +:+ rest)).
  intros fi fn fc fg.
  unfold mnemonics in Hin. cbn [In] in Hin.
  repeat (destruct Hin as [Heq | Hin]; [injection Heq as <- <- |]);
    try contradiction;
    cbn [Parser.matches strncmp_eq String.append String.length Ascii.eqb
         Bool.eqb andb];
    apply code_byte_of_flags; cbv; (split; [discriminate | reflexivity]).
Qed.

Lemma execute_nop {Mem : Type} cmd operand line (s : il_state Mem) :
  Z.land cmd CMD_MASK = CMD_NOP ->
  il_interp_execute cmd operand line s = Some (s, line_incr line).
Proof. intros H. unfold il_interp_execute. now rewrite H. Qed.

Lemma parse_unknown_code (t : string) :
  Forall (fun m => Parser.matches m.1 t = false) mnemonics ->
  Z.land (Parser.il_interp_parse t) CMD_MASK = CMD_NOP.
Proof.
  intros Hall. unfold Parser.il_interp_parse, mnemonics in *.
  repeat match goal with
         | H : Forall _ (_ :: _) |- _ =>
             let Hm := fresh "Hm" in
             apply Forall_cons in H as [Hm H]; cbn [fst] in Hm; rewrite Hm
         end.
  apply code_byte_of_flags. cbv. split; [discriminate | reflexivity].
Qed.

(** A token that starts with no mnemonic is parsed to a NOP, whatever flag
    characters it carries: executing its code returns the incremented line
    and leaves the state, memory included, as it was. *)
Theorem parse_unknown_is_nop {Mem : Type} (t : string) :
  Forall (fun m => Parser.matches m.1 t = false) mnemonics ->
  Z.land (Parser.il_interp_parse t) CMD_MASK = CMD_NOP /\
  forall operand line (s : il_state Mem),
    il_interp_execute (Parser.il_interp_parse t) operand line s
    = Some (s, line_incr line).
Proof.
  intros Hall. pose proof (parse_unknown_code t Hall) as Hnop.
  split; [exact Hnop|]. intros operand line s. now apply execute_nop.
Qed.


(** ** Control flow and completion of [il_interp_execute] *)

Lemma decode_opcode_jmp (c : Z) : decode_opcode c = OP_JMP -> c = CMD_JMP.
Proof.
  unfold decode_opcode.
  repeat match goal with
         | |- context [?a =? ?b] => destruct (Z.eqb_spec a b) as [->|_]
         end; intros H; try discriminate H; reflexivity.
Qed.

Lemma decode_opcode_mul (c : Z) : decode_opcode c = OP_MUL -> c = CMD_MUL.
Proof.
  unfold decode_opcode.
  repeat match goal with
         | |- context [?a =? ?b] => destruct (Z.eqb_spec a b) as [->|_]
         end; intros H; try discriminate H; reflexivity.
Qed.

Lemma decode_opcode_div (c : Z) : decode_opcode c = OP_DIV -> c = CMD_DIV.
Proof.
  unfold decode_opcode.
  repeat match goal with
         | |- context [?a =? ?b] => destruct (Z.eqb_spec a b) as [->|_]
         end; intros H; try discriminate H; reflexivity.
Qed.

Section Completion.
Context {Mem : Type}.
Implicit Types (s : il_state Mem).

(** Only JUMP, CALL and RET choose the next line: every other instruction
    that completes, a close-group and an unknown code included, returns the
    incremented line. *)
Theorem non_branching_falls_through cmd operand line s s1 next :
  ~ branching cmd ->
  il_interp_execute cmd operand line s = Some (s1, next) ->
  next = line_incr line.
Proof.
  intros Hnb. unfold il_interp_execute.
  destruct (decode_opcode (Z.land cmd CMD_MASK)) eqn:Hop;
    try (apply decode_opcode_jmp in Hop; exfalso; apply Hnb; now left);
    try (apply decode_opcode_cal in Hop; exfalso; apply Hnb; right; now left);
    try (apply decode_opcode_ret in Hop; exfalso; apply Hnb; right; now right);
    clear Hop Hnb; intros H; crunch; reflexivity.
Qed.

Lemma call_get_defined address invert s :
  mem s <> None -> is_Some (call_get address invert s).
Proof.
  intros H. unfold call_get. destruct (mem s) as [cb|]; [|contradiction]. cbn.
  destruct (get cb address invert (image s)). eauto.
Qed.

Lemma call_set_defined address value invert s :
  mem s <> None -> is_Some (call_set address value invert s).
Proof.
  intros H. unfold call_set. destruct (mem s) as [cb|]; [|contradiction]. cbn. eauto.
Qed.

Lemma call_get_mem address invert s v s1 :
  call_get address invert s = Some (v, s1) ->
  mem s1 = mem s /\ accum s1 = accum s /\
  eval_stack s1 = eval_stack s /\ eval_stack_top s1 = eval_stack_top s.
Proof.
  unfold call_get. destruct (mem s) as [cb|] eqn:Hm; [|discriminate]. cbn.
  destruct (get cb address invert (image s)). intros [= <- <-].
  repeat split; cbn; congruence.
Qed.

Lemma call_set_mem address value invert s s1 :
  call_set address value invert s = Some s1 ->
  mem s1 = mem s /\ accum s1 = accum s /\
  eval_stack s1 = eval_stack s /\ eval_stack_top s1 = eval_stack_top s.
Proof.
  unfold call_set. destruct (mem s) as [cb|] eqn:Hm; [|discriminate]. cbn.
  intros [= <-]. repeat split; cbn; congruence.
Qed.

Lemma eval_stack_push_defined cmd acc s :
  eval_stack_top s <> INT_MAX -> is_Some (eval_stack_push cmd acc s).
Proof.
  intros H. unfold eval_stack_push.
  destruct (Z.eqb_spec (eval_stack_top s) INT_MAX); [contradiction | eauto].
Qed.

(** The one operator with undefined cases: apart from LOAD and STOR, which
    go through the memory interface, [evaluate_operator] has no result
    exactly for a DIV whose effective right operand is 0 and for a MUL
    whose product exceeds [INT_MAX]. *)
Theorem evaluate_operator_undefined_iff cmd op1 op2 s :
  Z.land cmd CMD_MASK <> CMD_LOAD -> Z.land cmd CMD_MASK <> CMD_STOR ->
  evaluate_operator cmd op1 op2 s = None <->
  (Z.land cmd CMD_MASK = CMD_DIV /\ effective_operand cmd op2 = 0) \/
  (Z.land cmd CMD_MASK = CMD_MUL /\ op1 * effective_operand cmd op2 > INT_MAX).
Proof.
  intros Hl Hs. unfold evaluate_operator, effective_operand.
  destruct (Z.eqb_spec (Z.land cmd CMD_MASK) CMD_LOAD); [contradiction|].
  destruct (Z.eqb_spec (Z.land cmd CMD_MASK) CMD_STOR); [contradiction|].
  generalize (if flag cmd FLG_NEG then uint16 (Z.lnot op2) else op2). intros e.
  destruct (decode_opcode (Z.land cmd CMD_MASK)) eqn:Hop; cbn [mbind option_bind];
    try (split; [discriminate |];
         intros [[Hc _] | [Hc _]]; rewrite Hc in Hop; discriminate Hop).
  - (* MUL *)
    apply decode_opcode_mul in Hop.
    destruct (Z.gtb_spec (op1 * e) INT_MAX); cbn [mbind option_bind]; split.
    + intros _. right. split; [assumption | lia].
    + reflexivity.
    + discriminate.
    + intros [[Hc _] | [_ Hgt]]; [rewrite Hc in Hop; discriminate Hop | lia].
  - (* DIV *)
    apply decode_opcode_div in Hop.
    destruct (Z.eqb_spec e 0); cbn [mbind option_bind]; split.
    + intros _. left. now split.
    + reflexivity.
    + discriminate.
    + intros [[_ Hz] | [Hc _]]; [contradiction | rewrite Hc in Hop; discriminate Hop].
Qed.

End Completion.

Section CompletionOfExecute.
Context {Mem : Type}.
Implicit Types (s : il_state Mem).

(** The operators other than MUL and DIV always have a result. *)
Lemma evaluate_operator_total cmd op1 op2 s :
  Z.land cmd CMD_MASK <> CMD_LOAD -> Z.land cmd CMD_MASK <> CMD_STOR ->
  Z.land cmd CMD_MASK <> CMD_MUL -> Z.land cmd CMD_MASK <> CMD_DIV ->
  is_Some (evaluate_operator cmd op1 op2 s).
Proof.
  intros Hl Hs Hm Hd. unfold evaluate_operator.
  destruct (Z.eqb_spec (Z.land cmd CMD_MASK) CMD_LOAD); [contradiction|].
  destruct (Z.eqb_spec (Z.land cmd CMD_MASK) CMD_STOR); [contradiction|].
  destruct (decode_opcode (Z.land cmd CMD_MASK)) eqn:Hop; cbn; eauto.
  - apply decode_opcode_mul in Hop. contradiction.
  - apply decode_opcode_div in Hop. contradiction.
Qed.

(** Once the callbacks are bound and while the group counter is below
    [INT_MAX], every instruction other than MUL, DIV and close-group
    completes, whatever its flags, its operand and the state of the
    stacks. *)
Theorem execute_completes cmd operand line s :
  mem s <> None -> eval_stack_top s <> INT_MAX ->
  Z.land cmd CMD_MASK <> CMD_MUL -> Z.land cmd CMD_MASK <> CMD_DIV ->
  Z.land cmd CMD_MASK <> CMD_PAR ->
  is_Some (il_interp_execute cmd operand line s).
Proof.
  intros Hmem Htop Hm Hd Hp.
  assert (forall a i, exists v s1, call_get a i s = Some (v, s1) /\
            mem s1 = mem s /\ accum s1 = accum s /\
            eval_stack s1 = eval_stack s /\ eval_stack_top s1 = eval_stack_top s) as Hget.
  { intros a i. destruct (call_get_defined a i s Hmem) as [[v s1] H].
    exists v, s1. split; [exact H | eapply call_get_mem, H]. }
  assert (forall a v i, exists s1, call_set a v i s = Some s1) as Hset.
  { intros a v i. destruct (call_set_defined a v i s Hmem) as [s1 H]. eauto. }
  assert (forall c a s1, eval_stack_top s1 = eval_stack_top s ->
            exists s2, eval_stack_push c a s1 = Some s2) as Hpush.
  { intros c a s1 H1. destruct (eval_stack_push_defined c a s1) as [s2 H]; [congruence | eauto]. }
  assert (forall s1 v, Z.land cmd CMD_MASK <> CMD_LOAD -> Z.land cmd CMD_MASK <> CMD_STOR ->
            exists r s2, evaluate_operator cmd (accum s1) v s1 = Some (r, s2)) as Hop2.
  { intros s1 v Hl Hs.
    destruct (evaluate_operator_total cmd (accum s1) v s1 Hl Hs Hm Hd) as [[r s2] H]. eauto. }
  unfold il_interp_execute.
  destruct (decode_opcode (Z.land cmd CMD_MASK)) eqn:Hop;
    try (apply decode_opcode_mul in Hop; contradiction);
    try (apply decode_opcode_div in Hop; contradiction);
    try (apply decode_opcode_par in Hop; contradiction);
    repeat match goal with
      | |- is_Some (Some _) => eauto
      | |- context [mbind _ (Some _)] => progress cbn [mbind option_bind]
      | |- context [call_stack_pop s] => destruct (call_stack_pop s) as [[?|] ?]
      | |- context [call_stack_push ?a s] => destruct (call_stack_push a s) as [[] ?]
      | |- context [call_set ?a ?v ?i s] =>
          let H := fresh in destruct (Hset a v i) as [? H]; rewrite H; cbn [mbind option_bind]
      | |- context [call_get ?a ?i s] =>
          let H := fresh in
          destruct (Hget a i) as (? & ? & H & ? & ? & ? & ?); rewrite H; cbn [mbind option_bind]
      | |- context [eval_stack_push ?c ?a ?s1] =>
          let H := fresh in
          destruct (Hpush c a s1) as [? H]; [congruence || reflexivity | rewrite H; cbn [mbind option_bind]]
      | |- context [evaluate_operator cmd (accum ?s1) ?v ?s1] =>
          let H := fresh in
          destruct (Hop2 s1 v) as (? & ? & H);
          [intros E; rewrite E in Hop; discriminate Hop ..
          | rewrite H; cbn [mbind option_bind]]
      | |- context [if ?b then _ else _] => destruct b
      end.
Qed.

End CompletionOfExecute.

(** ** Arithmetic on the accumulator *)

Section Arithmetic.
Context {Mem : Type}.
Implicit Types (s : il_state Mem).

Lemma set_accum_same s : set_accum (accum s) s = s.
Proof. now destruct s. Qed.

Lemma set_accum_twice a b s : set_accum a (set_accum b s) = set_accum a s.
Proof. reflexivity. Qed.

Lemma execute_add_immediate cmd v line s :
  Z.land cmd CMD_MASK = CMD_ADD -> flag cmd FLG_IMM = true -> flag cmd FLG_PAR = false ->
  il_interp_execute cmd v line s =
    Some (set_accum (uint16 (accum s + effective_operand cmd v)) s, line_incr line).
Proof.
  intros Hop Hi Hg. unfold il_interp_execute, evaluate_operator, effective_operand.
  rewrite Hop, Hi, Hg. reflexivity.
Qed.

Lemma execute_sub_immediate cmd v line s :
  Z.land cmd CMD_MASK = CMD_SUB -> flag cmd FLG_IMM = true -> flag cmd FLG_PAR = false ->
  il_interp_execute cmd v line s =
    Some (set_accum (uint16 (accum s - effective_operand cmd v)) s, line_incr line).
Proof.
  intros Hop Hi Hg. unfold il_interp_execute, evaluate_operator, effective_operand.
  rewrite Hop, Hi, Hg. reflexivity.
Qed.

Lemma execute_xor_immediate cmd v line s :
  Z.land cmd CMD_MASK = CMD_XOR -> flag cmd FLG_IMM = true -> flag cmd FLG_PAR = false ->
  il_interp_execute cmd v line s =
    Some (set_accum (uint16 (Z.lxor (accum s) (effective_operand cmd v))) s, line_incr line).
Proof.
  intros Hop Hi Hg. unfold il_interp_execute, evaluate_operator, effective_operand.
  rewrite Hop, Hi, Hg. reflexivity.
Qed.

Lemma uint16_land (z : Z) : uint16 z = Z.land z (Z.ones 16).
Proof. unfold uint16. now rewrite Z.land_ones by lia. Qed.

Lemma xor_twice_16 (a e : Z) :
  Z.land (Z.lxor (Z.land (Z.lxor a e) (Z.ones 16)) e) (Z.ones 16)
  = Z.land a (Z.ones 16).
Proof.
  apply Z.bits_inj'. intros n Hn.
  rewrite !Z.land_spec, !Z.lxor_spec, !Z.land_spec, !Z.lxor_spec.
  destruct (Z.testbit a n), (Z.testbit e n), (Z.testbit (Z.ones 16) n); reflexivity.
Qed.

(** With a 16-bit accumulator, an immediate SUB undoes the immediate ADD of
    the same operand under the same Negate flag, wrap-around included, and
    an immediate XOR undoes itself: the state is exactly the one before. *)
Theorem add_sub_xor_round_trip cmd_add cmd_sub cmd_xor v line1 line2 s :
  0 <= accum s < 65536 ->
  Z.land cmd_add CMD_MASK = CMD_ADD -> Z.land cmd_sub CMD_MASK = CMD_SUB ->
  Z.land cmd_xor CMD_MASK = CMD_XOR ->
  flag cmd_add FLG_IMM = true -> flag cmd_sub FLG_IMM = true ->
  flag cmd_xor FLG_IMM = true ->
  flag cmd_add FLG_PAR = false -> flag cmd_sub FLG_PAR = false ->
  flag cmd_xor FLG_PAR = false ->
  flag cmd_sub FLG_NEG = flag cmd_add FLG_NEG ->
  (il_interp_execute cmd_add v line1 s ≫=
     fun r => il_interp_execute cmd_sub v line2 r.1) = Some (s, line_incr line2) /\
  (il_interp_execute cmd_xor v line1 s ≫=
     fun r => il_interp_execute cmd_xor v line2 r.1) = Some (s, line_incr line2).
Proof.
  intros Ha Hadd Hsub Hxor Hia His Hix Hga Hgs Hgx Hn. split.
  - rewrite execute_add_immediate by assumption. cbn [mbind option_bind fst].
    rewrite execute_sub_immediate by assumption. cbn [accum set_accum].
    rewrite set_accum_twice. unfold effective_operand. rewrite Hn.
    generalize (if flag cmd_add FLG_NEG then uint16 (Z.lnot v) else v). intros e.
    replace (uint16 (uint16 (accum s + e) - e)) with (accum s);
      [now rewrite set_accum_same|].
    unfold uint16. rewrite Zminus_mod_idemp_l.
    replace (accum s + e - e) with (accum s) by lia.
    symmetry. apply Z.mod_small. lia.
  - rewrite execute_xor_immediate by assumption. cbn [mbind option_bind fst].
    rewrite execute_xor_immediate by assumption. cbn [accum set_accum].
    rewrite set_accum_twice.
    generalize (effective_operand cmd_xor v). intros e.
    replace (uint16 (Z.lxor (uint16 (Z.lxor (accum s) e)) e)) with (accum s);
      [now rewrite set_accum_same|].
    rewrite !uint16_land, xor_twice_16.
    rewrite Z.land_ones by lia. symmetry. apply Z.mod_small. lia.
Qed.

End Arithmetic.

(** ** Groups on the evaluation stack *)

Section Groups.
Context {Mem : Type}.
Implicit Types (s : il_state Mem).

Lemma evaluate_operator_mem cmd op1 op2 s r s1 :
  evaluate_operator cmd op1 op2 s = Some (r, s1) ->
  mem s1 = mem s /\ accum s1 = accum s /\
  eval_stack s1 = eval_stack s /\ eval_stack_top s1 = eval_stack_top s.
Proof.
  unfold evaluate_operator.
  destruct (Z.land cmd CMD_MASK =? CMD_LOAD); [apply call_get_mem|].
  destruct (Z.land cmd CMD_MASK =? CMD_STOR).
  - destruct (call_set op2 op1 _ s) as [s2|] eqn:E; [|discriminate]. cbn.
    intros [= <- <-]. eapply call_set_mem, E.
  - match goal with
    | |- (?o ≫= _) = _ -> _ => destruct o; [|discriminate]
    end. cbn. intros [= <- <-]. now repeat split.
Qed.

Lemma eval_stack_push_step cmd acc s s1 :
  eval_stack_push cmd acc s = Some s1 ->
  mem s1 = mem s /\ accum s1 = accum s /\
  length (eval_stack s1) = length (eval_stack s) /\
  eval_stack_top s1 = eval_stack_top s + 1 /\
  (20 <= eval_stack_top s -> eval_stack s1 = eval_stack s).
Proof.
  unfold eval_stack_push, EVAL_STACK_MAX_DEPTH.
  destruct (eval_stack_top s =? INT_MAX); [discriminate|]. intros [= <-]. cbn.
  repeat split.
  - destruct (eval_stack_top s <? 20); [apply length_insert | reflexivity].
  - intros H. destruct (Z.ltb_spec (eval_stack_top s) 20); [lia | reflexivity].
Qed.

Lemma eval_stack_pop_step s :
  mem (eval_stack_pop s).2 = mem s /\ accum (eval_stack_pop s).2 = accum s /\
  eval_stack (eval_stack_pop s).2 = eval_stack s /\
  ((eval_stack_pop s).1 = None /\ eval_stack_top (eval_stack_pop s).2 = eval_stack_top s \/
   (eval_stack_top s <> 0 /\ eval_stack_top s < 20) /\
   eval_stack_top (eval_stack_pop s).2 = eval_stack_top s - 1).
Proof.
  unfold eval_stack_pop, EVAL_STACK_MAX_DEPTH.
  destruct (Z.eqb_spec (eval_stack_top s) 0) as [E|E]; cbn [orb fst snd].
  - repeat split. now left.
  - destruct (Z.geb_spec (eval_stack_top s) 20) as [G|G]; cbn [orb fst snd].
    + repeat split. now left.
    + repeat split. right. split; [split; [assumption | lia] | reflexivity].
Qed.

Lemma call_stack_push_eval addr s :
  mem (call_stack_push addr s).2 = mem s /\
  accum (call_stack_push addr s).2 = accum s /\
  eval_stack (call_stack_push addr s).2 = eval_stack s /\
  eval_stack_top (call_stack_push addr s).2 = eval_stack_top s.
Proof.
  unfold call_stack_push.
  destruct (call_stack_top s >=? CALL_STACK_MAX_DEPTH); now repeat split.
Qed.

Lemma call_stack_pop_eval s :
  mem (call_stack_pop s).2 = mem s /\
  accum (call_stack_pop s).2 = accum s /\
  eval_stack (call_stack_pop s).2 = eval_stack s /\
  eval_stack_top (call_stack_pop s).2 = eval_stack_top s.
Proof.
  unfold call_stack_pop. destruct (call_stack_top s <=? 0); now repeat split.
Qed.

End Groups.

(** Turns every step of a run into equations on the callbacks, the
    accumulator and the evaluation stack. *)
Ltac steps :=
  repeat match goal with
    | H : call_get _ _ _ = Some _ |- _ =>
        apply call_get_mem in H; destruct H as (? & ? & ? & ?)
    | H : call_set _ _ _ _ = Some _ |- _ =>
        apply call_set_mem in H; destruct H as (? & ? & ? & ?)
    | H : evaluate_operator _ _ _ _ = Some _ |- _ =>
        apply evaluate_operator_mem in H; destruct H as (? & ? & ? & ?)
    | H : eval_stack_push _ _ _ = Some _ |- _ =>
        apply eval_stack_push_step in H; destruct H as (? & ? & ? & ? & ?)
    | H : eval_stack_pop ?s = (_, _) |- _ =>
        let F := fresh in
        pose proof (eval_stack_pop_step s) as F; rewrite H in F;
        cbn [fst snd] in F; destruct F as (? & ? & ? & [[? ?] | [? ?]]); clear H
    | H : call_stack_push ?a ?s = (_, _) |- _ =>
        let F := fresh in
        pose proof (call_stack_push_eval a s) as F; rewrite H in F;
        cbn [fst snd] in F; destruct F as (? & ? & ? & ?); clear H
    | H : call_stack_pop ?s = (_, _) |- _ =>
        let F := fresh in
        pose proof (call_stack_pop_eval s) as F; rewrite H in F;
        cbn [fst snd] in F; destruct F as (? & ? & ? & ?); clear H
    end.

Section GroupInvariants.
Context {Mem : Type}.
Implicit Types (s : il_state Mem).

(** One instruction moves the group counter by at most one, never below 0,
    and never changes the size of the array; the callbacks stay bound. *)
Lemma execute_eval_step cmd operand line s s1 next :
  il_interp_execute cmd operand line s = Some (s1, next) ->
  mem s1 = mem s /\
  length (eval_stack s1) = length (eval_stack s) /\
  eval_stack_top s - 1 <= eval_stack_top s1 <= eval_stack_top s + 1 /\
  (0 <= eval_stack_top s -> 0 <= eval_stack_top s1) /\
  (20 <= eval_stack_top s ->
   eval_stack s1 = eval_stack s /\ eval_stack_top s <= eval_stack_top s1).
Proof.
  unfold il_interp_execute.
  destruct (decode_opcode (Z.land cmd CMD_MASK)); intros H; crunch; steps;
    cbn [mem eval_stack eval_stack_top set_accum] in *;
    repeat split; try congruence; try lia; intros; try congruence; try lia;
    repeat match goal with
      | H : 20 <= ?x -> _ |- _ => specialize (H ltac:(lia))
      end; congruence.
Qed.

End GroupInvariants.

Section GroupRuns.
Context {Mem : Type}.
Implicit Types (s : il_state Mem).

Lemma execute_all_eval_step prog : forall s s1 outs,
  execute_all prog s = Some (s1, outs) ->
  mem s1 = mem s /\
  length (eval_stack s1) = length (eval_stack s) /\
  eval_stack_top s1 <= eval_stack_top s + Z.of_nat (length prog) /\
  (0 <= eval_stack_top s -> 0 <= eval_stack_top s1) /\
  (20 <= eval_stack_top s ->
   eval_stack s1 = eval_stack s /\ eval_stack_top s <= eval_stack_top s1).
Proof.
  induction prog as [|[[cmd operand] line] prog IH]; intros s s1 outs Hrun.
  - cbn in Hrun. injection Hrun as <- <-. cbn. repeat split; lia.
  - cbn in Hrun.
    destruct (il_interp_execute cmd operand line s) as [[s2 next]|] eqn:E;
      [|discriminate]. cbn in Hrun.
    destruct (execute_all prog s2) as [[s3 nexts]|] eqn:E2; [|discriminate].
    cbn in Hrun. injection Hrun as <- <-.
    destruct (execute_eval_step _ _ _ _ _ _ E) as (Hm & Hl & Hs & Hn & Hf).
    destruct (IH _ _ _ E2) as (Hm2 & Hl2 & Hs2 & Hn2 & Hf2).
    cbn [length].
    split; [congruence|]. split; [congruence|]. split; [lia|]. split; [lia|].
    intros Hfull. destruct (Hf Hfull) as [Ha Hb]. destruct Hf2 as [Hc Hd]; [lia|].
    split; [congruence | lia].
Qed.

(** Group-counter invariant.  After [il_interp_init] and any instructions
    that complete, the counter is at least 0 and at most the number of
    instructions executed, the array still has its size and the callbacks
    are still the ones bound by [il_interp_init]. *)
Theorem eval_stack_depth_invariant prog cb s0 s1 outs :
  execute_all prog (il_interp_init cb s0) = Some (s1, outs) ->
  0 <= eval_stack_top s1 <= Z.of_nat (length prog) /\
  length (eval_stack s1) = length (eval_stack s0) /\
  mem s1 = Some cb.
Proof.
  intros Hrun.
  destruct (execute_all_eval_step _ _ _ _ Hrun) as (Hm & Hl & Hs & Hn & _).
  cbn in *. repeat split; try assumption; lia.
Qed.

(** Once the group counter has reached 20 the evaluation stack is dead:
    every close-group does nothing, and no sequence of instructions changes
    a stored entry or brings the counter back below 20.  Only
    [il_interp_init] revives it. *)
Theorem eval_stack_dead_at_capacity s :
  20 <= eval_stack_top s ->
  (forall cmd operand line,
     Z.land cmd CMD_MASK = CMD_PAR ->
     il_interp_execute cmd operand line s = Some (s, line_incr line)) /\
  (forall prog s1 outs,
     execute_all prog s = Some (s1, outs) ->
     eval_stack s1 = eval_stack s /\ 20 <= eval_stack_top s1 /\
     eval_stack_top s <= eval_stack_top s1).
Proof.
  intros Hfull. split.
  - intros cmd operand line Hop. unfold il_interp_execute. rewrite Hop.
    change (decode_opcode CMD_PAR) with OP_PAR.
    now rewrite (eval_stack_pop_at_capacity _ Hfull).
  - intros prog s1 outs Hrun.
    destruct (execute_all_eval_step _ _ _ _ Hrun) as (_ & _ & _ & _ & Hf).
    destruct (Hf Hfull). repeat split; try assumption; lia.
Qed.

Lemma execute_eval_neutral cmd operand line s s1 next :
  eval_neutral (cmd, operand, line) ->
  il_interp_execute cmd operand line s = Some (s1, next) ->
  eval_stack s1 = eval_stack s /\ eval_stack_top s1 = eval_stack_top s.
Proof.
  intros [Hg Hp]. cbn in Hg, Hp. unfold il_interp_execute.
  destruct (decode_opcode (Z.land cmd CMD_MASK)) eqn:Hop;
    try (apply decode_opcode_par in Hop; contradiction);
    try rewrite Hg; clear Hop Hg Hp; intros H; crunch; steps;
    cbn [eval_stack eval_stack_top set_accum] in *; split; congruence.
Qed.

Lemma execute_all_eval_neutral prog : forall s s1 outs,
  Forall eval_neutral prog ->
  execute_all prog s = Some (s1, outs) ->
  eval_stack s1 = eval_stack s /\ eval_stack_top s1 = eval_stack_top s.
Proof.
  induction prog as [|[[cmd operand] line] prog IH]; intros s s1 outs Hall Hrun.
  - cbn in Hrun. injection Hrun as <- <-. now split.
  - apply Forall_cons in Hall as [Hhd Htl]. cbn in Hrun.
    destruct (il_interp_execute cmd operand line s) as [[s2 next]|] eqn:E;
      [|discriminate]. cbn in Hrun.
    destruct (execute_all prog s2) as [[s3 nexts]|] eqn:E2; [|discriminate].
    cbn in Hrun. injection Hrun as <- <-.
    destruct (execute_eval_neutral _ _ _ _ _ _ Hhd E) as [H1 H2].
    destruct (IH _ _ _ Htl E2) as [H3 H4]. split; congruence.
Qed.

(** Each stack is touched only by its own instructions: a run without CALL
    and RET leaves the call stack and its counter as they were, and a run
    without group-opening flags and close-groups leaves the evaluation
    stack and its counter as they were. *)
Theorem stacks_touched_by_their_instructions prog s s1 outs :
  execute_all prog s = Some (s1, outs) ->
  (Forall call_neutral prog ->
   call_stack s1 = call_stack s /\ call_stack_top s1 = call_stack_top s) /\
  (Forall eval_neutral prog ->
   eval_stack s1 = eval_stack s /\ eval_stack_top s1 = eval_stack_top s).
Proof.
  intros Hrun. split; intros Hall.
  - exact (execute_all_call_neutral prog s s1 outs Hall Hrun).
  - exact (execute_all_eval_neutral prog s s1 outs Hall Hrun).
Qed.

End GroupRuns.


Section GroupSemantics.
Context {Mem : Type}.
Implicit Types (s : il_state Mem).

(** Opening a group stores the command with the accumulator and advances
    the counter. *)
Lemma execute_open_group cmd operand line s s1 next :
  0 <= eval_stack_top s < 20 ->
  deferrable cmd = true -> flag cmd FLG_PAR = true ->
  il_interp_execute cmd operand line s = Some (s1, next) ->
  eval_stack s1 = <[Z.to_nat (eval_stack_top s) :=
                     {| command := cmd; entry_accum := accum s |}]> (eval_stack s) /\
  eval_stack_top s1 = eval_stack_top s + 1.
Proof.
  intros Htop Hdef Hg. unfold il_interp_execute, deferrable in *.
  destruct (decode_opcode (Z.land cmd CMD_MASK)); try discriminate Hdef;
    rewrite Hg; intros H; crunch;
    repeat match goal with
      | H : call_get _ _ _ = Some _ |- _ =>
          apply call_get_mem in H; destruct H as (_ & Ha & Hs & Ht)
      | H : eval_stack_push _ _ ?s0 = Some _ |- _ =>
          rewrite eval_stack_push_room in H by lia; injection H as <-
      end; cbn; split; congruence.
Qed.


(** The close-group that ends a group applies the saved command to the
    saved accumulator and to the accumulator the body has left. *)
Lemma execute_close_group cmd operand line body cmd_close x line2 s s1 next s2 outs :
  length (eval_stack s) = 20%nat -> 0 <= eval_stack_top s < 19 ->
  deferrable cmd = true -> flag cmd FLG_PAR = true ->
  il_interp_execute cmd operand line s = Some (s1, next) ->
  Forall eval_neutral body ->
  execute_all body s1 = Some (s2, outs) ->
  Z.land cmd_close CMD_MASK = CMD_PAR ->
  il_interp_execute cmd_close x line2 s2 =
    '(ret, s3) ← evaluate_operator cmd (accum s) (accum s2)
                   (set_eval (eval_stack s2) (eval_stack_top s) s2);
    Some (set_accum ret s3, line_incr line2).
Proof.
  intros Hlen Htop Hdef Hg Hopen Hbody Hrun Hclose.
  destruct (execute_open_group cmd operand line s s1 next) as [Hst Hdepth];
    [lia | assumption ..|].
  destruct (execute_all_eval_neutral body s1 s2 outs Hbody Hrun) as [Hst2 Hdepth2].
  unfold il_interp_execute. rewrite Hclose.
  change (decode_opcode CMD_PAR) with OP_PAR.
  rewrite eval_stack_pop_live by lia.
  rewrite Hst2, Hdepth2, Hst, Hdepth.
  replace (eval_stack_top s + 1 - 1) with (eval_stack_top s) by lia.
  rewrite list_lookup_insert_eq by lia. reflexivity.
Qed.










(** Group semantics.  After a group has been opened below depth 19 by a
    LOAD, a STOR or a binary operator carrying the group flag, and after any
    body that neither opens nor closes a group, the close-group applies the
    saved command to the saved accumulator and to the value the body has
    left in the accumulator, and restores the depth: for a deferred LOAD or
    STOR the body's value is the address. *)
Theorem group_applies_saved_command
    cmd operand line body cmd_close x line2 s s1 next s2 outs :
  length (eval_stack s) = 20%nat -> 0 <= eval_stack_top s < 19 ->
  deferrable cmd = true -> flag cmd FLG_PAR = true ->
  il_interp_execute cmd operand line s = Some (s1, next) ->
  Forall eval_neutral body ->
  execute_all body s1 = Some (s2, outs) ->
  Z.land cmd_close CMD_MASK = CMD_PAR ->
  eval_stack_top s2 = eval_stack_top s + 1 /\
  il_interp_execute cmd_close x line2 s2 =
    ('(ret, s3) ← evaluate_operator cmd (accum s) (accum s2)
                    (set_eval (eval_stack s2) (eval_stack_top s) s2);
     Some (set_accum ret s3, line_incr line2)) /\
  forall s4 next4,
    il_interp_execute cmd_close x line2 s2 = Some (s4, next4) ->
    eval_stack_top s4 = eval_stack_top s /\ next4 = line_incr line2.
Proof.
  intros Hlen Htop Hdef Hg Hopen Hbody Hrun Hclose.
  pose proof (execute_close_group cmd operand line body cmd_close x line2
                s s1 next s2 outs Hlen Htop Hdef Hg Hopen Hbody Hrun Hclose) as Heq.
  destruct (execute_open_group cmd operand line s s1 next) as [_ Hdepth];
    [lia | assumption ..|].
  destruct (execute_all_eval_neutral body s1 s2 outs Hbody Hrun) as [_ Hdepth2].
  split; [congruence|]. split; [exact Heq|].
  intros s4 next4 H4. rewrite Heq in H4.
  destruct (evaluate_operator cmd (accum s) (accum s2) _) as [[r s3]|] eqn:Hev;
    [|discriminate]. cbn in H4. injection H4 as <- <-.
  apply evaluate_operator_mem in Hev as (_ & _ & _ & Ht). cbn in *. now split.
Qed.


End GroupSemantics.

(** ** More on the demo's memory *)

Lemma addr_decode_some (a col row : Z) :
  0 <= a -> addr_decode a = Some (col, row) ->
  valid_address a /\
  col = (if a / 10000 <? 2 then a / 10000 else a / 10000 - 1) /\
  row = a mod 10000 - 1.
Proof.
  intros Ha Hdec.
  assert (valid_address a \/ ~ valid_address a) as [Hv|Hv]
    by (unfold valid_address; lia).
  - rewrite (addr_decode_valid a Ha Hv) in Hdec. injection Hdec as <- <-. auto.
  - rewrite (addr_decode_invalid a Ha Hv) in Hdec. discriminate.
Qed.

Lemma addr_decode_bounds (a col row : Z) :
  0 <= a -> addr_decode a = Some (col, row) -> 0 <= col < 4 /\ 0 <= row < 26.
Proof.
  intros Ha Hdec.
  destruct (addr_decode_some a col row) as ([Hslot Hreg] & -> & ->); [lia | assumption |].
  split; [|lia]. destruct Hreg as [-> | [-> | [-> | ->]]]; cbn; lia.
Qed.

Lemma addr_decode_injective (a b col row : Z) :
  0 <= a -> 0 <= b ->
  addr_decode a = Some (col, row) -> addr_decode b = Some (col, row) -> a = b.
Proof.
  intros Ha Hb Hda Hdb.
  destruct (addr_decode_some a col row) as ([Hslot Hreg] & Hc & Hr); [lia | assumption |].
  destruct (addr_decode_some b col row) as ([Hslot2 Hreg2] & Hc2 & Hr2); [lia | assumption |].
  assert (a / 10000 = b / 10000) as Hq.
  { destruct Hreg as [E | [E | [E | E]]], Hreg2 as [E2 | [E2 | [E2 | E2]]];
      rewrite E, E2 in *; cbn in Hc, Hc2; lia. }
  rewrite (Z.div_mod a 10000), (Z.div_mod b 10000) by lia. lia.
Qed.

(** A decoded address names a cell inside the arrays, and two different
    16-bit addresses never name the same cell. *)
Theorem addr_decode_cells (a : Z) :
  0 <= a < 65536 ->
  (forall col row,
     addr_decode a = Some (col, row) -> 0 <= col < 4 /\ 0 <= row < 26) /\
  (forall b,
     0 <= b < 65536 -> is_Some (addr_decode a) ->
     addr_decode a = addr_decode b -> a = b).
Proof.
  intros Ha. split.
  - intros col row. apply addr_decode_bounds. lia.
  - intros b Hb [[col row] Hdec] Heq. rewrite Hdec in Heq.
    apply (addr_decode_injective a b col row); (lia || congruence).
Qed.

Lemma cell_update_other {A : Type} (d : A) (a : list (list A))
      (col row col2 row2 : Z) (v : A) :
  0 <= col -> 0 <= row -> 0 <= col2 -> 0 <= row2 ->
  (col, row) <> (col2, row2) ->
  cell d (cell_update a col row v) col2 row2 = cell d a col2 row2.
Proof.
  intros Hc Hr Hc2 Hr2 Hne. unfold cell, cell_update.
  destruct (decide (col = col2)) as [<-|Hcol].
  - rewrite list_lookup_alter_eq. destruct (a !! Z.to_nat col) as [r|]; [|reflexivity].
    cbn. rewrite list_lookup_insert_ne; [reflexivity|].
    intros E. apply Hne. f_equal. lia.
  - rewrite list_lookup_alter_ne by lia. reflexivity.
Qed.

Lemma cell_update_wf {A : Type} (a : list (list A)) (col row : Z) (v : A) :
  length a = 2%nat -> Forall (fun r => length r = 26%nat) a ->
  length (cell_update a col row v) = 2%nat /\
  Forall (fun r => length r = 26%nat) (cell_update a col row v).
Proof.
  intros Hl Hf. unfold cell_update. split.
  - now rewrite length_alter.
  - apply Forall_alter; [assumption|]. intros r _ Hr. now rewrite length_insert.
Qed.

(** Writing never resizes the widget arrays. *)
Lemma mem_set_wf (a v : Z) (invert : bool) (m : demo_memory) :
  demo_wf m -> demo_wf (mem_set a v invert m).
Proof.
  intros (Hb & Hbrows & Hw & Hwrows). unfold mem_set.
  destruct (addr_decode a) as [[col row]|]; [|now repeat split].
  destruct (col <? 2); unfold demo_wf; cbn [bit_memory word_memory].
  - destruct (cell_update_wf (bit_memory m) col row
                (truthy (if invert then logical_not v else v)) Hb Hbrows). auto.
  - destruct (cell_update_wf (word_memory m) (col - 2) row
                (spin_button_set_value (if invert then bitwise_not v else v)) Hw Hwrows).
    auto.
Qed.

(** What a read returns just after a write to the same valid address. *)
Lemma mem_get_mem_set_same (m : demo_memory) (a v : Z) (i j : bool) :
  demo_wf m -> 0 <= a < 65536 -> valid_address a ->
  mem_get a i (mem_set a v j m) =
    if a / 10000 <? 2 then
      let bit := if truthy (if j then logical_not v else v) then 1 else 0 in
      if i then logical_not bit else bit
    else
      let word := uint16 (spin_button_set_value (if j then bitwise_not v else v)) in
      if i then bitwise_not word else word.
Proof.
  intros (Hb & Hbrows & Hw & Hwrows) Ha Hvalid.
  assert (0 <= a) as Hnn by lia.
  pose proof (addr_decode_valid a Hnn Hvalid) as Hdec.
  destruct Hvalid as [Hslot Hreg].
  destruct (Z.ltb_spec (a / 10000) 2) as [Hlt|Hge].
  - unfold mem_get, mem_set. rewrite !Hdec. cbn beta iota.
    assert ((a / 10000 <? 2) = true) as Hlt2 by (apply Z.ltb_lt; lia).
    rewrite !Hlt2. cbn [bit_memory word_memory].
    rewrite cell_update_read by (assumption || lia). reflexivity.
  - assert ((a / 10000 - 1 <? 2) = false) as Hlt1 by (apply Z.ltb_ge; lia).
    unfold mem_get, mem_set. rewrite !Hdec. cbn beta iota. rewrite !Hlt1.
    cbn [bit_memory word_memory].
    rewrite cell_update_read by (assumption || lia). reflexivity.
Qed.

Lemma mem_get_mem_set_other (m : demo_memory) (a b v : Z) (i j : bool) :
  0 <= a < 65536 -> 0 <= b < 65536 -> a <> b ->
  mem_get b i (mem_set a v j m) = mem_get b i m.
Proof.
  intros Ha Hb Hne. unfold mem_set.
  destruct (addr_decode a) as [[col row]|] eqn:Hda; [|reflexivity].
  unfold mem_get.
  destruct (addr_decode b) as [[col2 row2]|] eqn:Hdb; [|reflexivity].
  destruct (addr_decode_bounds a col row) as [Hc Hr]; [lia | assumption |].
  destruct (addr_decode_bounds b col2 row2) as [Hc2 Hr2]; [lia | assumption |].
  assert ((col, row) <> (col2, row2)) as Hcell.
  { intros E. injection E as <- <-. apply Hne.
    apply (addr_decode_injective a b col row); (lia || assumption). }
  destruct (Z.ltb_spec col 2), (Z.ltb_spec col2 2); cbn [bit_memory word_memory];
    try reflexivity.
  - rewrite cell_update_other by (assumption || lia). reflexivity.
  - assert ((col - 2, row) <> (col2 - 2, row2)) as Hcell2.
    { intros E. apply Hcell. injection E as E1 E2. f_equal; lia. }
    rewrite cell_update_other by (assumption || lia). reflexivity.
Qed.

(** A write changes the addressed cell only, and never resizes the widget
    arrays: every other 16-bit address reads as before. *)
Theorem mem_set_only_its_cell (m : demo_memory) (a v : Z) (j : bool) :
  0 <= a < 65536 ->
  (demo_wf m -> demo_wf (mem_set a v j m)) /\
  (forall b i, 0 <= b < 65536 -> a <> b ->
     mem_get b i (mem_set a v j m) = mem_get b i m).
Proof.
  intros Ha. split.
  - apply mem_set_wf.
  - intros b i Hb Hne. now apply mem_get_mem_set_other.
Qed.

Lemma logical_not_01 (v : Z) : logical_not v = 0 \/ logical_not v = 1.
Proof. unfold logical_not. destruct (truthy v); auto. Qed.

(** Every read is a 16-bit value; a read of a bit bank is 0 or 1, inverted
    or not, and a read of an invalid address is 0. *)
Theorem mem_get_range (a : Z) (invert : bool) (m : demo_memory) :
  0 <= mem_get a invert m < 65536 /\
  (0 <= a -> a / 10000 < 2 ->
   mem_get a invert m = 0 \/ mem_get a invert m = 1) /\
  (0 <= a -> ~ valid_address a -> mem_get a invert m = 0).
Proof.
  assert (forall z, 0 <= uint16 z < 65536) as Hu
    by (intros z; unfold uint16; apply Z.mod_pos_bound; lia).
  assert (forall col row,
            let val := if cell false (bit_memory m) col row then 1 else 0 in
            (if invert then logical_not val else val) = 0 \/
            (if invert then logical_not val else val) = 1) as Hbit.
  { intros col row val. destruct invert; [apply logical_not_01|].
    subst val. destruct (cell false (bit_memory m) col row); auto. }
  split; [|split].
  - unfold mem_get. destruct (addr_decode a) as [[col row]|]; [|lia].
    destruct (col <? 2).
    + destruct (Hbit col row) as [-> | ->]; lia.
    + destruct invert; [apply Hu | apply Hu].
  - intros Ha Hreg. unfold mem_get.
    destruct (addr_decode a) as [[col row]|] eqn:Hdec; [|now left].
    destruct (addr_decode_some a col row Ha Hdec) as (_ & -> & _).
    assert ((a / 10000 <? 2) = true) as -> by (apply Z.ltb_lt; lia).
    assert ((a / 10000 <? 2) = true) as -> by (apply Z.ltb_lt; lia).
    apply Hbit.
  - intros Ha Hinv. unfold mem_get. now rewrite (addr_decode_invalid a Ha Hinv).
Qed.

(** Writing with invert.  On a valid address a write with invert stores
    the complement: a bit bank then reads [1 - bit] of the value (a nonzero
    value clears the bit), a word bank its 16-bit complement; reading back
    with invert as well gives the bit of the value, or the value itself. *)
Theorem inverted_write_round_trip (m : demo_memory) (a v : Z) :
  demo_wf m -> 0 <= a < 65536 -> 0 <= v < 65536 -> valid_address a ->
  (a / 10000 < 2 ->
     mem_get a false (mem_set a v true m) = 1 - bit_of v /\
     mem_get a true (mem_set a v true m) = bit_of v) /\
  (2 <= a / 10000 ->
     mem_get a false (mem_set a v true m) = 65535 - v /\
     mem_get a true (mem_set a v true m) = v).
Proof.
  intros Hwf Ha Hv Hvalid.
  rewrite !(mem_get_mem_set_same m a v _ true Hwf Ha Hvalid).
  destruct (bitwise_not_16 v Hv) as [Hnot _].
  split; intros Hreg.
  - assert ((a / 10000 <? 2) = true) as -> by (apply Z.ltb_lt; lia).
    unfold logical_not, bit_of, truthy. destruct (v =? 0); cbn; auto.
  - assert ((a / 10000 <? 2) = false) as -> by (apply Z.ltb_ge; lia).
    cbn zeta. rewrite Hnot.
    assert (uint16 (spin_button_set_value (65535 - v)) = 65535 - v) as ->.
    { unfold spin_button_set_value, uint16. rewrite Z.mod_small; lia. }
    split; [reflexivity|].
    destruct (bitwise_not_16 (65535 - v)) as [Hnot2 _]; [lia|]. rewrite Hnot2. lia.
Qed.

(** ** The interpreter on the demo's memory *)

Lemma call_set_mc address value invert (s : il_state demo_memory) :
  mem s = Some mc ->
  call_set address value invert s =
    Some (set_image (mem_set address value invert (image s))
                    (CallSet address value invert) s).
Proof. intros H. unfold call_set. now rewrite H. Qed.

Lemma call_get_mc address invert (s : il_state demo_memory) :
  mem s = Some mc ->
  call_get address invert s =
    Some (mem_get address invert (image s),
          set_image (image s) (CallGet address invert) s).
Proof. intros H. unfold call_get. now rewrite H. Qed.

(** SET and RST on the demo.  When the accumulator is nonzero, or zero
    under Negate, SET writes 1 and RST writes 0 to a valid address, which
    then reads back as 1 or 0, with one call to [mem_set] and the
    accumulator untouched; otherwise nothing is written and the state is
    as before. *)
Theorem set_rst_on_demo cmd a line (s : il_state demo_memory) :
  mem s = Some mc -> demo_wf (image s) ->
  0 <= a < 65536 -> valid_address a ->
  Z.land cmd CMD_MASK = CMD_SET \/ Z.land cmd CMD_MASK = CMD_RST ->
  ((flag cmd FLG_NEG = false /\ accum s <> 0) \/
   (flag cmd FLG_NEG = true /\ accum s = 0) ->
   exists s1,
     il_interp_execute cmd a line s = Some (s1, line_incr line) /\
     accum s1 = accum s /\
     mem_get a false (image s1) = (if Z.land cmd CMD_MASK =? CMD_SET then 1 else 0) /\
     mem_calls s1 =
       CallSet a (if Z.land cmd CMD_MASK =? CMD_SET then 1 else 0) false :: mem_calls s) /\
  ((flag cmd FLG_NEG = false /\ accum s = 0) \/
   (flag cmd FLG_NEG = true /\ accum s <> 0) ->
   il_interp_execute cmd a line s = Some (s, line_incr line)).
Proof.
  intros Hmem Hwf Ha Hvalid Hop.
  assert (forall v, v = 0 \/ v = 1 -> mem_get a false (mem_set a v false (image s)) = v) as Hread.
  { intros v Hv. rewrite (mem_get_mem_set_same _ a v false false Hwf Ha Hvalid).
    destruct Hv as [-> | ->]; destruct (a / 10000 <? 2); reflexivity. }
  split.
  - intros Hcond.
    assert (set_condition cmd s = true) as Hsc.
    { unfold set_condition.
      destruct Hcond as [[-> Hacc] | [-> Hacc]]; cbn.
      - apply truthy_true in Hacc. now rewrite Hacc.
      - apply truthy_false in Hacc. now rewrite Hacc. }
    unfold il_interp_execute.
    destruct Hop as [Hop | Hop]; rewrite Hop;
      [change (decode_opcode CMD_SET) with OP_SET
      | change (decode_opcode CMD_RST) with OP_RST];
      rewrite Hsc, call_set_mc by assumption; cbn [mbind option_bind];
      eexists; (split; [reflexivity|]); cbn;
      (split; [reflexivity|]); (split; [|reflexivity]); apply Hread; auto.
  - intros Hcond.
    assert (set_condition cmd s = false) as Hsc.
    { unfold set_condition.
      destruct Hcond as [[-> Hacc] | [-> Hacc]]; cbn.
      - apply truthy_false in Hacc. now rewrite Hacc.
      - apply truthy_true in Hacc. now rewrite Hacc. }
    unfold il_interp_execute.
    destruct Hop as [Hop | Hop]; rewrite Hop;
      [change (decode_opcode CMD_SET) with OP_SET
      | change (decode_opcode CMD_RST) with OP_RST];
      now rewrite Hsc.
Qed.

(** STOR then LOAD on the demo.  With a 16-bit accumulator, a STOR to a
    valid address followed by a LOAD from it under the same Negate flag
    gives the accumulator back for a word bank and its truth value, 1 or 0,
    for a bit bank; the double inversion of [STOR_N]/[LOAD_N] cancels. *)
Theorem stor_load_on_demo cmd_stor cmd_load a line1 line2 (s : il_state demo_memory) :
  mem s = Some mc -> demo_wf (image s) ->
  0 <= a < 65536 -> valid_address a -> 0 <= accum s < 65536 ->
  Z.land cmd_stor CMD_MASK = CMD_STOR -> Z.land cmd_load CMD_MASK = CMD_LOAD ->
  flag cmd_stor FLG_PAR = false -> flag cmd_load FLG_PAR = false ->
  flag cmd_load FLG_IMM = false ->
  Z.land cmd_load FLG_NEG = Z.land cmd_stor FLG_NEG ->
  exists s1 s2,
    il_interp_execute cmd_stor a line1 s = Some (s1, line_incr line1) /\
    accum s1 = accum s /\
    il_interp_execute cmd_load a line2 s1 = Some (s2, line_incr line2) /\
    accum s2 = (if a / 10000 <? 2 then bit_of (accum s) else accum s).
Proof.
  intros Hmem Hwf Ha Hvalid Hacc Hst Hld Hgs Hgl Hil Hn.
  unfold il_interp_execute.
  rewrite Hst, Hld. change (decode_opcode CMD_STOR) with OP_STOR.
  change (decode_opcode CMD_LOAD) with OP_LOAD.
  rewrite Hgs, Hgl, Hil, Hn.
  change (CMD_STOR =? CMD_STOR) with true. change (CMD_LOAD =? CMD_STOR) with false.
  cbn iota. rewrite call_set_mc by assumption. cbn [mbind option_bind].
  eexists _, _. split; [reflexivity|]. split; [reflexivity|].
  rewrite call_get_mc by assumption. cbn [mbind option_bind].
  split; [reflexivity|]. cbn [accum set_accum image set_image].
  rewrite (mem_get_mem_set_same _ a (accum s) _ _ Hwf Ha Hvalid).
  destruct (bitwise_not_16 (accum s) Hacc) as [Hnot _].
  destruct (FLG_NEG =? Z.land cmd_stor FLG_NEG), (a / 10000 <? 2); cbn zeta.
  - unfold logical_not, bit_of, truthy. now destruct (accum s =? 0).
  - rewrite Hnot.
    assert (uint16 (spin_button_set_value (65535 - accum s)) = 65535 - accum s) as ->.
    { unfold spin_button_set_value, uint16. rewrite Z.mod_small; lia. }
    destruct (bitwise_not_16 (65535 - accum s)) as [-> _]; lia.
  - unfold bit_of, truthy. now destruct (accum s =? 0).
  - unfold spin_button_set_value, uint16. rewrite Z.mod_small; lia.
Qed.

(** ** The single-step driver *)

(** The demo's first program of the description: three presses of step
    after init leave 8 in the accumulator and in word 40001. *)
Example demo_steps_scenario :
  do_presses [Init; Step; Step; Step]
             (demo_boot [(Some "LOAD_I", 5); (Some "ADD_I", 3); (Some "STOR", 40001)])
    ≫= (fun d => Some (accum (interp d), current_line d,
                       mem_get 40001 false (image (interp d))))
  = Some (8, 3, 8).
Proof. vm_compute. reflexivity. Qed.

Lemma execute_line_mem line_no d i next :
  execute_line line_no d = Some (i, next) -> mem i = mem (interp d).
Proof.
  unfold execute_line.
  destruct (program d !! Z.to_nat line_no) as [[[command|] value]|]; cbn;
    [| intros [= <- _]; reflexivity | discriminate].
  intros H. now destruct (execute_eval_step _ _ _ _ _ _ H) as [Hm _].
Qed.

Lemma do_press_ok prog p d d1 :
  pressed_ok prog d -> do_press p d = Some d1 -> pressed_ok prog d1.
Proof.
  intros Hok. pose proof Hok as (Hp & Hr & Hbefore & Hafter). destruct p; cbn.
  - unfold prog_step. rewrite Hr. cbn [negb andb].
    destruct (init d) eqn:Hi; cbn [andb]; [|intros [= <-]; exact Hok].
    destruct (current_line d <? NUM_LINES); [|intros [= <-]; exact Hok].
    destruct (execute_line (current_line d) d) as [[i next]|] eqn:Hex; [|discriminate].
    cbn. intros [= <-]. unfold pressed_ok. cbn.
    repeat split; try assumption; try discriminate.
    intros _. rewrite (execute_line_mem _ _ _ _ Hex). now apply Hafter.
  - intros [= <-]. unfold prog_init. rewrite Hr. unfold pressed_ok. cbn.
    repeat split; try assumption; try discriminate.
    intros _. destruct (init d); [now apply Hafter | reflexivity].
Qed.

Lemma do_presses_ok prog ps : forall d d1,
  pressed_ok prog d -> do_presses ps d = Some d1 -> pressed_ok prog d1.
Proof.
  induction ps as [|p ps IH]; intros d d1 Hok Hrun; cbn in Hrun.
  - now injection Hrun as <-.
  - destruct (do_press p d) as [d2|] eqn:Hp; [|discriminate]. cbn in Hrun.
    eapply IH; [eapply do_press_ok; eassumption | exact Hrun].
Qed.

(** The demo never runs an instruction before the interpreter is
    initialised.  Whatever init and step buttons are pressed after start-up,
    the program lines are untouched; until the first init the interpreter
    is in its start-up state and the line is 0, so that steps do nothing;
    from the first init on the callbacks are the demo's [mem_get] and
    [mem_set]. *)
Theorem demo_steps_after_init prog ps d :
  do_presses ps (demo_boot prog) = Some d ->
  program d = prog /\ running d = false /\
  (init d = false -> interp d = startup demo_start /\ current_line d = 0) /\
  (init d = true -> mem (interp d) = Some mc).
Proof.
  intros Hrun. apply (do_presses_ok prog ps (demo_boot prog) d); [|exact Hrun].
  unfold pressed_ok. cbn. repeat split; discriminate.
Qed.

(** A step over a blank line.  Once initialised, a step on a program line
    with no command selected, or with a text that starts with no mnemonic
    (the menu's ["_"]), moves to the next line and changes nothing else. *)
Theorem step_over_blank_line d token value :
  running d = false -> init d = true ->
  0 <= current_line d < NUM_LINES ->
  program d !! Z.to_nat (current_line d) = Some (token, value) ->
  token = None \/
  (exists t, token = Some t /\
             Forall (fun m => Parser.matches m.1 t = false) mnemonics) ->
  prog_step d =
    Some (mk_demo (interp d) (program d) (current_line d + 1)
                  (init d) (halt d) (running d)).
Proof.
  intros Hr Hi Hline Hprog Htok. unfold prog_step, execute_line.
  rewrite Hr, Hi, Hprog.
  assert ((current_line d <? NUM_LINES) = true) as -> by (apply Z.ltb_lt; lia).
  unfold NUM_LINES in Hline.
  assert (uint16 (current_line d + 1) = current_line d + 1) as Hnext
    by (unfold uint16; apply Z.mod_small; lia).
  cbn [negb andb mbind option_bind].
  destruct Htok as [-> | (t & -> & Hall)].
  - cbn. now rewrite Hnext.
  - rewrite (execute_nop _ _ _ _ (parse_unknown_code t Hall)).
    cbn. unfold line_incr.
    assert (uint16 (current_line d) = current_line d) as ->
      by (unfold uint16; apply Z.mod_small; lia).
    now rewrite Hnext.
Qed.

(** ** The further statements at concrete inputs *)

(** [JUMP_CN] starts with the mnemonic JUMP. *)
Lemma parse_mnemonic_prefix_witness :
  In ("JUMP", CMD_JMP) mnemonics /\
  Z.land (Parser.il_interp_parse "JUMP_CN") CMD_MASK = CMD_JMP.
Proof.
  assert (In ("JUMP", CMD_JMP) mnemonics) as Hin
    by (unfold mnemonics; repeat (try (left; reflexivity); right)).
  split; [exact Hin|].
  exact (parse_mnemonic_prefix "JUMP" CMD_JMP "_CN" Hin).
Defined.

(** The menu's first text, ["_"], starts with no mnemonic. *)
Lemma parse_unknown_is_nop_witness :
  Forall (fun m => Parser.matches m.1 "_" = false) mnemonics /\
  Z.land (Parser.il_interp_parse "_") CMD_MASK = CMD_NOP.
Proof.
  assert (Forall (fun m => Parser.matches m.1 "_" = false) mnemonics) as Hall
    by (unfold mnemonics; repeat constructor).
  split; [exact Hall|].
  exact (proj1 (parse_unknown_is_nop (Mem := demo_memory) "_" Hall)).
Defined.

(** [ADD_I 3] at line 0 of the freshly initialised demo. *)
Lemma non_branching_falls_through_witness :
  ~ branching 4104 /\
  il_interp_execute 4104 3 0 demo_init = Some (set_accum 3 demo_init, 1) /\
  1 = line_incr 0.
Proof.
  assert (~ branching 4104) as Hnb
    by (intros [H | [H | H]]; discriminate H).
  split; [exact Hnb|]. split; [reflexivity|].
  exact (non_branching_falls_through 4104 3 0 demo_init (set_accum 3 demo_init) 1
           Hnb eq_refl).
Defined.

(** DIV of 7 by 0. *)
Lemma evaluate_operator_undefined_iff_witness :
  Z.land CMD_DIV CMD_MASK <> CMD_LOAD /\ Z.land CMD_DIV CMD_MASK <> CMD_STOR /\
  (evaluate_operator CMD_DIV 7 0 demo_init = None <->
   (Z.land CMD_DIV CMD_MASK = CMD_DIV /\ effective_operand CMD_DIV 0 = 0) \/
   (Z.land CMD_DIV CMD_MASK = CMD_MUL /\ 7 * effective_operand CMD_DIV 0 > INT_MAX)).
Proof.
  assert (Z.land CMD_DIV CMD_MASK <> CMD_LOAD) as Hl by discriminate.
  assert (Z.land CMD_DIV CMD_MASK <> CMD_STOR) as Hs by discriminate.
  split; [exact Hl|]. split; [exact Hs|].
  exact (evaluate_operator_undefined_iff CMD_DIV 7 0 demo_init Hl Hs).
Defined.

(** [STOR 40001] on the freshly initialised demo. *)
Lemma execute_completes_witness :
  mem demo_init <> None /\ eval_stack_top demo_init <> INT_MAX /\
  is_Some (il_interp_execute CMD_STOR 40001 0 demo_init).
Proof.
  assert (mem demo_init <> None) as Hm by discriminate.
  assert (eval_stack_top demo_init <> INT_MAX) as Ht by discriminate.
  split; [exact Hm|]. split; [exact Ht|].
  apply (execute_completes CMD_STOR 40001 0 demo_init Hm Ht); discriminate.
Defined.

(** [ADD_I 65535] then [SUB_I 65535], and [XOR_I 65535] twice, from an
    accumulator of 0. *)
Lemma add_sub_xor_round_trip_witness :
  0 <= accum demo_init < 65536 /\
  (il_interp_execute 4104 65535 0 demo_init ≫=
     fun r => il_interp_execute 4105 65535 1 r.1) = Some (demo_init, line_incr 1).
Proof.
  assert (0 <= accum demo_init < 65536) as Ha by (cbn; lia).
  split; [exact Ha|].
  exact (proj1 (add_sub_xor_round_trip 4104 4105 4103 65535 0 1 demo_init Ha
                  eq_refl eq_refl eq_refl eq_refl eq_refl eq_refl
                  eq_refl eq_refl eq_refl eq_refl)).
Defined.

(** One [LOAD_{] after [il_interp_init]. *)
Lemma eval_stack_depth_invariant_witness :
  execute_all [open_group] (il_interp_init mc (startup demo_start))
    = Some (nested 1, [1]) /\
  0 <= eval_stack_top (nested 1) <= 1.
Proof.
  split; [reflexivity|].
  exact (proj1 (eval_stack_depth_invariant [open_group] mc (startup demo_start)
                  (nested 1) [1] eq_refl)).
Defined.

(** The demo after 20 [LOAD_{] lines. *)
Lemma eval_stack_dead_at_capacity_witness :
  20 <= eval_stack_top (nested 20) /\
  il_interp_execute CMD_PAR 0 20 (nested 20) = Some (nested 20, line_incr 20).
Proof.
  assert (20 <= eval_stack_top (nested 20)) as Hfull by (cbn; lia).
  split; [exact Hfull|].
  exact (proj1 (eval_stack_dead_at_capacity (nested 20) Hfull) CMD_PAR 0 20 eq_refl).
Defined.

(** [LOAD_I 5] touches neither stack. *)
Lemma stacks_touched_by_their_instructions_witness :
  execute_all [(4097, 5, 0)] demo_init = Some (set_accum 5 demo_init, [1]) /\
  eval_stack_top (set_accum 5 demo_init) = eval_stack_top demo_init.
Proof.
  split; [reflexivity|].
  destruct (stacks_touched_by_their_instructions [(4097, 5, 0)] demo_init
              (set_accum 5 demo_init) [1] eq_refl) as [_ Heval].
  apply Heval. constructor; [|constructor]. split; [reflexivity | discriminate].
Defined.

(** [ADD_I{ 3], the body [ADD_I 4], then the close-group, from the freshly
    initialised demo: the deferred ADD is applied to the saved 0 and to the
    body's 7. *)
Lemma group_applies_saved_command_witness :
  length (eval_stack demo_init) = 20%nat /\
  0 <= eval_stack_top demo_init < 19 /\
  deferrable 36872 = true /\ flag 36872 FLG_PAR = true /\
  il_interp_execute 36872 3 0 demo_init
    = Some (set_accum 3
              (set_eval (<[0%nat := {| command := 36872; entry_accum := 0 |}]>
                 (eval_stack demo_init)) 1 demo_init), 1) /\
  execute_all [(4104, 4, 1)]
    (set_accum 3
       (set_eval (<[0%nat := {| command := 36872; entry_accum := 0 |}]>
                 (eval_stack demo_init)) 1 demo_init))
    = Some (set_accum 7
              (set_eval (<[0%nat := {| command := 36872; entry_accum := 0 |}]>
                 (eval_stack demo_init)) 1 demo_init), [2]) /\
  eval_stack_top
    (set_accum 7
       (set_eval (<[0%nat := {| command := 36872; entry_accum := 0 |}]>
                 (eval_stack demo_init)) 1 demo_init))
  = eval_stack_top demo_init + 1.
Proof.
  assert (0 <= eval_stack_top demo_init < 19) as Htop by (cbn; lia).
  assert (Forall (@eval_neutral) [(4104, 4, 1)]) as Hbody
    by (constructor; [split; [reflexivity | discriminate] | constructor]).
  split; [reflexivity|]. split; [exact Htop|]. split; [reflexivity|].
  split; [reflexivity|]. split; [reflexivity|]. split; [reflexivity|].
  exact (proj1 (group_applies_saved_command 36872 3 0 [(4104, 4, 1)] CMD_PAR 0 2
                  demo_init _ 1 _ [2]
                  eq_refl Htop eq_refl eq_refl eq_refl Hbody eq_refl eq_refl)).
Defined.


(** Address 40001 names cell 0 of column 3. *)
Lemma addr_decode_cells_witness :
  0 <= 40001 < 65536 /\
  (addr_decode 40001 = Some (3, 0) -> 0 <= 3 < 4 /\ 0 <= 0 < 26).
Proof.
  assert (0 <= 40001 < 65536) as Ha by lia.
  split; [exact Ha|].
  exact (proj1 (addr_decode_cells 40001 Ha) 3 0).
Defined.

(** A write to 40001 leaves 40002 alone. *)
Lemma mem_set_only_its_cell_witness :
  0 <= 40001 < 65536 /\
  mem_get 40002 false (mem_set 40001 7 false demo_start)
  = mem_get 40002 false demo_start.
Proof.
  assert (0 <= 40001 < 65536) as Ha by lia.
  split; [exact Ha|].
  apply (proj2 (mem_set_only_its_cell demo_start 40001 7 false Ha)); [lia | discriminate].
Defined.

(** Writing 5 with invert to bit 00001 clears it. *)
Lemma inverted_write_round_trip_witness :
  demo_wf demo_start /\ valid_address 1 /\
  mem_get 1 false (mem_set 1 5 true demo_start) = 1 - bit_of 5.
Proof.
  assert (demo_wf demo_start) as Hwf
    by (repeat split; try reflexivity; repeat constructor).
  assert (valid_address 1) as Hvalid
    by (split; [change (1 mod 10000) with 1; lia | left; reflexivity]).
  split; [exact Hwf|]. split; [exact Hvalid|].
  destruct (inverted_write_round_trip demo_start 1 5 Hwf) as [Hbit _];
    [lia | lia | exact Hvalid |].
  apply Hbit. change (1 / 10000) with 0. lia.
Defined.

(** [SET 00001] with the accumulator at 1. *)
Lemma set_rst_on_demo_witness :
  mem (set_accum 1 demo_init) = Some mc /\
  demo_wf (image (set_accum 1 demo_init)) /\ valid_address 1 /\
  exists s1,
    il_interp_execute CMD_SET 1 0 (set_accum 1 demo_init) = Some (s1, line_incr 0) /\
    mem_get 1 false (image s1) = 1.
Proof.
  assert (demo_wf (image (set_accum 1 demo_init))) as Hwf
    by (repeat split; try reflexivity; repeat constructor).
  assert (valid_address 1) as Hvalid
    by (split; [change (1 mod 10000) with 1; lia | left; reflexivity]).
  split; [reflexivity|]. split; [exact Hwf|]. split; [exact Hvalid|].
  destruct (set_rst_on_demo CMD_SET 1 0 (set_accum 1 demo_init) eq_refl Hwf)
    as [Hset _]; [lia | exact Hvalid | left; reflexivity |].
  destruct Hset as (s1 & Hex & _ & Hread & _).
  - left. split; [reflexivity | discriminate].
  - exists s1. split; [exact Hex | exact Hread].
Defined.

(** [STOR 40001] then [LOAD 40001] with the accumulator at 1234. *)
Lemma stor_load_on_demo_witness :
  mem (set_accum 1234 demo_init) = Some mc /\
  demo_wf (image (set_accum 1234 demo_init)) /\ valid_address 40001 /\
  exists s1 s2,
    il_interp_execute CMD_STOR 40001 0 (set_accum 1234 demo_init)
      = Some (s1, line_incr 0) /\
    il_interp_execute CMD_LOAD 40001 1 s1 = Some (s2, line_incr 1) /\
    accum s2 = 1234.
Proof.
  assert (demo_wf (image (set_accum 1234 demo_init))) as Hwf
    by (repeat split; try reflexivity; repeat constructor).
  assert (valid_address 40001) as Hvalid
    by (split; [change (40001 mod 10000) with 1; lia
               | right; right; right; reflexivity]).
  split; [reflexivity|]. split; [exact Hwf|]. split; [exact Hvalid|].
  destruct (stor_load_on_demo CMD_STOR CMD_LOAD 40001 0 1 (set_accum 1234 demo_init)
              eq_refl Hwf) as (s1 & s2 & H1 & _ & H2 & Hacc);
    try reflexivity; [lia | exact Hvalid | cbn; lia |].
  exists s1, s2. split; [exact H1|]. split; [exact H2 | exact Hacc].
Defined.

(** One press of init on a one-line program. *)
Lemma demo_steps_after_init_witness :
  do_presses [Init] (demo_boot [(Some "LOAD_I", 5)])
    = Some (prog_init (demo_boot [(Some "LOAD_I", 5)])) /\
  mem (interp (prog_init (demo_boot [(Some "LOAD_I", 5)]))) = Some mc.
Proof.
  split; [reflexivity|].
  destruct (demo_steps_after_init [(Some "LOAD_I", 5)] [Init]
              (prog_init (demo_boot [(Some "LOAD_I", 5)])) eq_refl)
    as (_ & _ & _ & Hafter).
  apply Hafter. reflexivity.
Defined.

(** A step over the menu's ["_"] on the first line. *)
Lemma step_over_blank_line_witness :
  running (prog_init (demo_boot [(Some "_", 0)])) = false /\
  init (prog_init (demo_boot [(Some "_", 0)])) = true /\
  prog_step (prog_init (demo_boot [(Some "_", 0)]))
  = Some (mk_demo demo_init [(Some "_", 0)] 1 true false false).
Proof.
  split; [reflexivity|]. split; [reflexivity|].
  apply (step_over_blank_line (prog_init (demo_boot [(Some "_", 0)]))
           (Some "_") 0 eq_refl eq_refl); [unfold NUM_LINES; cbn; lia | reflexivity |].
  right. exists "_". split; [reflexivity|]. unfold mnemonics. repeat constructor.
Defined.
